(** * SlewRateLimiter: an integer slew-rate limiter with EMA smoothing

    A shallow embedding of [SlewRateLimiter.cpp] / [SlewRateLimiter.h]
    (class [SlewRateLimiter]) and the properties of its specification.

    The model follows the complete implementation of the class (the one
    whose [updateEMA], [processValue] and [reset] have bodies); the
    setters of the earlier skeleton are the same.

    The C++ [int] is modelled as a [Z] kept inside a two's complement
    window; every arithmetic operation of the source is written with its
    wrap-around.  The width of [int] depends on the board (16 bits on
    AVR, 32 bits on ARM and ESP cores), so the development is parametric
    in it.  Statements about magnitudes carry the hypotheses under which
    the operations involved do not overflow. *)

From Stdlib Require Import ZArith Lia List Bool.
Import ListNotations.

Local Open Scope Z_scope.

(* ================================================================= *)
(** ** Machine integers *)

(** The width of the C++ [int]; the language guarantees at least 16 bits. *)
Class IntWidth : Type := {
  int_bits : Z;
  int_bits_min : 16 <= int_bits
}.

Module CInt.
Section Ops.
Context {W : IntWidth}.

Definition half : Z := 2 ^ (int_bits - 1).
Definition INT_MIN : Z := - half.
Definition INT_MAX : Z := half - 1.

(** Representable values of [int]. *)
Definition in_range (z : Z) : Prop := INT_MIN <= z <= INT_MAX.

(** Reduction of a mathematical result into the two's complement window. *)
Definition wrap (z : Z) : Z := (z + half) mod (2 * half) - half.

Definition add (a b : Z) : Z := wrap (a + b).
Definition sub (a b : Z) : Z := wrap (a - b).
Definition neg (a : Z) : Z := wrap (- a).
Definition mul (a b : Z) : Z := wrap (a * b).

(** [a << k]. *)
Definition shl (a k : Z) : Z := wrap (Z.shiftl a k).

(** [a >> k] on a signed [int]: the arithmetic shift, which rounds
    toward minus infinity. *)
Definition shr (a k : Z) : Z := Z.shiftr a k.

(** [a / b] on [int]: the quotient truncated toward zero. *)
Definition div (a b : Z) : Z := wrap (Z.quot a b).

(** [abs(x)]; Arduino.h expands it to [((x)>0?(x):-(x))]. *)
Definition abs (a : Z) : Z := if 0 <? a then a else neg a.
End Ops.
End CInt.

(** A 16-bit [int] (AVR boards) and a 32-bit [int] (ARM, ESP boards). *)
#[refine] Instance int16 : IntWidth := {| int_bits := 16 |}.
Proof. lia. Defined.

#[refine] Instance int32 : IntWidth := {| int_bits := 32 |}.
Proof. lia. Defined.

(* ================================================================= *)
(** ** The class *)

(** [enum SRL_SmoothingExponent]. *)
Inductive SRL_SmoothingExponent : Type :=
| SRL_SMOOTHING_1
| SRL_SMOOTHING_2
| SRL_SMOOTHING_4
| SRL_SMOOTHING_8
| SRL_SMOOTHING_16
| SRL_SMOOTHING_32
| SRL_SMOOTHING_64
| SRL_SMOOTHING_128
| SRL_SMOOTHING_256
| SRL_SMOOTHING_512.

(** The enumerator's integer value, as used for the shift count. *)
Definition exponent_value (e : SRL_SmoothingExponent) : Z :=
  match e with
  | SRL_SMOOTHING_1 => 0
  | SRL_SMOOTHING_2 => 1
  | SRL_SMOOTHING_4 => 2
  | SRL_SMOOTHING_8 => 3
  | SRL_SMOOTHING_16 => 4
  | SRL_SMOOTHING_32 => 5
  | SRL_SMOOTHING_64 => 6
  | SRL_SMOOTHING_128 => 7
  | SRL_SMOOTHING_256 => 8
  | SRL_SMOOTHING_512 => 9
  end.

(** The private data members of [class SlewRateLimiter]. *)
Record SlewRateLimiter : Type := mkSlewRateLimiter {
  lastValue : Z;
  emaValue : Z;
  isFirstCall : bool;
  currentExponent : SRL_SmoothingExponent;
  rateLimit : Z;
  hysteresisBand : Z;
  adaptiveSlopeInternal : Z
}.

Section Methods.
Context {W : IntWidth}.
Import CInt.

(** [void setRateLimit(int limit)]. *)
Definition setRateLimit (s : SlewRateLimiter) (limit : Z) : SlewRateLimiter :=
  mkSlewRateLimiter (lastValue s) (emaValue s) (isFirstCall s)
    (currentExponent s) limit (hysteresisBand s) (adaptiveSlopeInternal s).

(** [void setHysteresisBand(int band)]. *)
Definition setHysteresisBand (s : SlewRateLimiter) (band : Z) : SlewRateLimiter :=
  mkSlewRateLimiter (lastValue s) (emaValue s) (isFirstCall s)
    (currentExponent s) (rateLimit s) band (adaptiveSlopeInternal s).

(** [void setSmoothingExponent(SRL_SmoothingExponent exponent)]. *)
Definition setSmoothingExponent (s : SlewRateLimiter)
    (exponent : SRL_SmoothingExponent) : SlewRateLimiter :=
  mkSlewRateLimiter (lastValue s) (emaValue s) (isFirstCall s)
    exponent (rateLimit s) (hysteresisBand s) (adaptiveSlopeInternal s).

(** [void setAdaptiveSlope(int slope)]:
    [adaptiveSlopeInternal = (slope * 128 + 50) / 100]. *)
Definition setAdaptiveSlope (s : SlewRateLimiter) (slope : Z) : SlewRateLimiter :=
  mkSlewRateLimiter (lastValue s) (emaValue s) (isFirstCall s)
    (currentExponent s) (rateLimit s) (hysteresisBand s)
    (div (add (mul slope 128) 50) 100).

(** The constructor: the member initialisers, then [setAdaptiveSlope(slope)]. *)
Definition new_SlewRateLimiter (exponent : SRL_SmoothingExponent)
    (rate hystBand slope : Z) : SlewRateLimiter :=
  setAdaptiveSlope
    (mkSlewRateLimiter 0 0 true exponent rate hystBand 0) slope.

(** [void reset()]. *)
Definition reset (s : SlewRateLimiter) : SlewRateLimiter :=
  mkSlewRateLimiter 0 0 true (currentExponent s)
    (rateLimit s) (hysteresisBand s) (adaptiveSlopeInternal s).

(** [int updateEMA(int newValue, int currentEMA, exponent)]:
    [((newValue << e) + (currentEMA << 10) - (currentEMA << e)) >> 10]. *)
Definition updateEMA (newValue currentEMA : Z)
    (smoothingExponent : SRL_SmoothingExponent) : Z :=
  let e := exponent_value smoothingExponent in
  shr (sub (add (shl newValue e) (shl currentEMA 10)) (shl currentEMA e)) 10.

(** The local [allowedChange] of [processValue], once the adaptive
    term has been added. *)
Definition allowedChange (s : SlewRateLimiter) (delta : Z) : Z :=
  if negb (adaptiveSlopeInternal s =? 0)
  then add (rateLimit s) (shr (mul (abs delta) (adaptiveSlopeInternal s)) 7)
  else rateLimit s.

(** [lastValue] after the "Rate limiting" block of [processValue]. *)
Definition steppedValue (s : SlewRateLimiter) (currentValue : Z) : Z :=
  let delta := sub currentValue (lastValue s) in
  let allowed := allowedChange s delta in
  if allowed <? delta then add (lastValue s) allowed
  else if delta <? neg allowed then sub (lastValue s) allowed
  else currentValue.

(** [lastValue] after the "Apply hysteresis" block of [processValue]. *)
Definition snappedValue (s : SlewRateLimiter) (currentValue : Z) : Z :=
  let stepped := steppedValue s currentValue in
  if abs (sub currentValue stepped) <=? hysteresisBand s
  then currentValue
  else stepped.

(** [int processValue(int currentValue)]: the returned value and the
    object afterwards. *)
Definition processValue (s : SlewRateLimiter) (currentValue : Z)
    : Z * SlewRateLimiter :=
  if isFirstCall s then
    (currentValue,
     mkSlewRateLimiter currentValue currentValue false (currentExponent s)
       (rateLimit s) (hysteresisBand s) (adaptiveSlopeInternal s))
  else
    let ema := updateEMA currentValue (emaValue s) (currentExponent s) in
    let out := snappedValue s currentValue in
    (out,
     mkSlewRateLimiter out ema false (currentExponent s)
       (rateLimit s) (hysteresisBand s) (adaptiveSlopeInternal s)).

(** One [processValue] call per input, in order; the outputs and the
    object afterwards. *)
Fixpoint processValues (s : SlewRateLimiter) (inputs : list Z)
    : list Z * SlewRateLimiter :=
  match inputs with
  | [] => ([], s)
  | x :: rest =>
      let (o, s1) := processValue s x in
      let (os, s2) := processValues s1 rest in
      (o :: os, s2)
  end.

(** Every [int] member holds a representable value. *)
Definition wf (s : SlewRateLimiter) : Prop :=
  in_range (lastValue s) /\ in_range (emaValue s) /\
  in_range (rateLimit s) /\ in_range (hysteresisBand s) /\
  in_range (adaptiveSlopeInternal s).
End Methods.

(* ================================================================= *)
(** ** The header's defaults and the earlier revision of [reset] *)

Section Revisions.
Context {W : IntWidth}.

(** The constructor called with no argument: the defaults declared in
    [SlewRateLimiter.h] are [SRL_SMOOTHING_4], [rate = 5],
    [hystBand = 2] and [slope = 0]. *)
Definition default_SlewRateLimiter : SlewRateLimiter :=
  new_SlewRateLimiter SRL_SMOOTHING_4 5 2 0.

(** [void reset()] as the earlier revision of [SlewRateLimiter.cpp] has
    it: only [isFirstCall = true]. *)
Definition reset_skeleton (s : SlewRateLimiter) : SlewRateLimiter :=
  mkSlewRateLimiter (lastValue s) (emaValue s) true (currentExponent s)
    (rateLimit s) (hysteresisBand s) (adaptiveSlopeInternal s).

(** The object of the README's second example, [SlewRateLimiter
    myLimiter(SRL_SMOOTHING_16, 10, 3, 50)], after a first
    [processValue(0)]. *)
Definition example_adaptive : SlewRateLimiter :=
  snd (processValue (new_SlewRateLimiter SRL_SMOOTHING_16 10 3 50) 0).
End Revisions.

(* ================================================================= *)
(** ** Vocabulary of the specification *)

Section Vocabulary.
Context {W : IntWidth}.
Import CInt.

(** The numerator of the EMA recurrence over the mathematical integers:
    [input * 2^shift + ema * 1024 - ema * 2^shift]. *)
Definition ema_numerator (input ema shift : Z) : Z :=
  input * 2 ^ shift + ema * 1024 - ema * 2 ^ shift.

(** The EMA update as the specification words it: the numerator divided
    by 1024 with the quotient truncated toward zero. *)
Definition ema_truncating (input ema shift : Z) : Z :=
  Z.quot (ema_numerator input ema shift) 1024.

(** No step of [updateEMA] leaves the range of [int]. *)
Definition ema_fits (input ema shift : Z) : Prop :=
  in_range (input * 2 ^ shift) /\ in_range (ema * 1024) /\
  in_range (ema * 2 ^ shift) /\
  in_range (input * 2 ^ shift + ema * 1024) /\
  in_range (ema_numerator input ema shift).

(** No step of the adaptive term of [allowedChange] leaves the range of
    [int]. *)
Definition allowed_fits (s : SlewRateLimiter) (delta : Z) : Prop :=
  Z.abs delta <= INT_MAX /\
  in_range (Z.abs delta * adaptiveSlopeInternal s) /\
  in_range (rateLimit s + Z.abs delta * adaptiveSlopeInternal s / 128).

(** An initialised object in fixed-rate mode, as it stands after some
    calls: used to exercise the statements below. *)
Definition tracking (last ema rate hystBand : Z) : SlewRateLimiter :=
  mkSlewRateLimiter last ema false SRL_SMOOTHING_4 rate hystBand 0.
End Vocabulary.

(** Splitting a conjunction without unfolding what its parts stand for. *)
Ltac split_all := repeat match goal with |- _ /\ _ => split end.

(* ================================================================= *)
(** ** Facts about the machine integers *)

Section IntFacts.
Context {W : IntWidth}.
Import CInt.

Lemma half_ge : 32768 <= half.
Proof.
  unfold half. change 32768 with (2 ^ 15).
  apply Z.pow_le_mono_r; [lia | pose proof int_bits_min; lia].
Qed.

Lemma wrap_id (z : Z) : in_range z -> wrap z = z.
Proof.
  unfold in_range, INT_MIN, INT_MAX, wrap. intros Hz.
  pose proof half_ge. rewrite Z.mod_small; lia.
Qed.

Lemma wrap_in_range (z : Z) : in_range (wrap z).
Proof.
  unfold in_range, INT_MIN, INT_MAX, wrap.
  pose proof half_ge.
  pose proof (Z.mod_pos_bound (z + half) (2 * half)). lia.
Qed.

Lemma small_in_range (z : Z) : -32768 <= z <= 32767 -> in_range z.
Proof.
  unfold in_range, INT_MIN, INT_MAX. pose proof half_ge. lia.
Qed.

Lemma shr_div (a k : Z) : 0 <= k -> shr a k = a / 2 ^ k.
Proof. intros Hk. unfold shr. apply Z.shiftr_div_pow2; assumption. Qed.

Lemma shr_in_range (a k : Z) : 0 <= k -> in_range a -> in_range (shr a k).
Proof.
  intros Hk Ha. rewrite shr_div by assumption.
  unfold in_range, INT_MIN, INT_MAX in *. pose proof half_ge.
  assert (0 < 2 ^ k) by (apply Z.pow_pos_nonneg; lia).
  split.
  - apply Z.div_le_lower_bound; nia.
  - apply Z.div_le_upper_bound; nia.
Qed.

Lemma shl_mul (a k : Z) :
  0 <= k -> in_range (a * 2 ^ k) -> shl a k = a * 2 ^ k.
Proof.
  intros Hk Hr. unfold shl. rewrite Z.shiftl_mul_pow2 by assumption.
  apply wrap_id; assumption.
Qed.

Lemma quot_abs_le (a b : Z) : 0 < b -> Z.abs (Z.quot a b) <= Z.abs a.
Proof.
  intros Hb. rewrite <- Z.quot_abs by lia.
  rewrite (Z.abs_eq b) by lia.
  rewrite Z.quot_div_nonneg by lia.
  apply Z.div_le_upper_bound; [lia | nia].
Qed.

Lemma div_in_range (a b : Z) : in_range (div a b).
Proof. apply wrap_in_range. Qed.

Lemma abs_math (a : Z) : Z.abs a <= INT_MAX -> abs a = Z.abs a.
Proof.
  intros Ha. unfold abs, neg.
  destruct (Z.ltb_spec 0 a); [lia |].
  rewrite wrap_id; unfold in_range, INT_MIN, INT_MAX in *; lia.
Qed.

Lemma exponent_value_bounds (e : SRL_SmoothingExponent) :
  0 <= exponent_value e <= 9.
Proof. destruct e; simpl; lia. Qed.

End IntFacts.

Create HintDb int_range.
#[export] Hint Resolve wrap_in_range shr_in_range div_in_range : int_range.

(* ================================================================= *)
(** ** The two paths of [processValue] and the class invariant *)

Section Invariant.
Context {W : IntWidth}.
Import CInt.

Lemma processValue_first (s : SlewRateLimiter) (x : Z) :
  isFirstCall s = true ->
  processValue s x =
    (x, mkSlewRateLimiter x x false (currentExponent s)
          (rateLimit s) (hysteresisBand s) (adaptiveSlopeInternal s)).
Proof. intros Hf. unfold processValue. rewrite Hf. reflexivity. Qed.

Lemma processValue_next (s : SlewRateLimiter) (x : Z) :
  isFirstCall s = false ->
  processValue s x =
    (snappedValue s x,
     mkSlewRateLimiter (snappedValue s x)
       (updateEMA x (emaValue s) (currentExponent s)) false
       (currentExponent s) (rateLimit s) (hysteresisBand s)
       (adaptiveSlopeInternal s)).
Proof. intros Hf. unfold processValue. rewrite Hf. reflexivity. Qed.

(** After any call the object is initialised, its [lastValue] is the
    value just returned and its configuration is the one it had. *)
Lemma processValue_post (s : SlewRateLimiter) (x : Z) :
  let r := processValue s x in
  isFirstCall (snd r) = false /\ lastValue (snd r) = fst r /\
  currentExponent (snd r) = currentExponent s /\
  rateLimit (snd r) = rateLimit s /\
  hysteresisBand (snd r) = hysteresisBand s /\
  adaptiveSlopeInternal (snd r) = adaptiveSlopeInternal s.
Proof.
  unfold processValue. destruct (isFirstCall s); simpl; split_all; reflexivity.
Qed.

Lemma steppedValue_in_range (s : SlewRateLimiter) (x : Z) :
  in_range x -> in_range (steppedValue s x).
Proof.
  intros Hx. unfold steppedValue, add, sub.
  repeat match goal with |- context [if ?b then _ else _] => destruct b end;
    auto with int_range.
Qed.

Lemma snappedValue_in_range (s : SlewRateLimiter) (x : Z) :
  in_range x -> in_range (snappedValue s x).
Proof.
  intros Hx. unfold snappedValue.
  destruct (_ <=? _); [assumption | apply steppedValue_in_range; assumption].
Qed.

Lemma updateEMA_in_range (x ema : Z) (e : SRL_SmoothingExponent) :
  in_range (updateEMA x ema e).
Proof.
  unfold updateEMA. apply shr_in_range; [lia |]. apply wrap_in_range.
Qed.

(** [processValue] keeps every member representable and returns a
    representable value. *)
Lemma processValue_wf (s : SlewRateLimiter) (x : Z) :
  wf s -> in_range x ->
  wf (snd (processValue s x)) /\ in_range (fst (processValue s x)).
Proof.
  unfold wf. intros (Hl & He & Hr & Hh & Ha) Hx.
  unfold processValue. destruct (isFirstCall s); simpl.
  - split_all; assumption.
  - pose proof (snappedValue_in_range s x Hx).
    pose proof (updateEMA_in_range x (emaValue s) (currentExponent s)).
    split_all; assumption.
Qed.

Lemma new_SlewRateLimiter_wf (e : SRL_SmoothingExponent) (rate hystBand slope : Z) :
  in_range rate -> in_range hystBand ->
  wf (new_SlewRateLimiter e rate hystBand slope).
Proof.
  intros Hr Hh. unfold wf, new_SlewRateLimiter, setAdaptiveSlope; simpl.
  assert (in_range 0) by (apply small_in_range; lia).
  split_all; try assumption. apply div_in_range.
Qed.

Lemma reset_wf (s : SlewRateLimiter) : wf s -> wf (reset s).
Proof.
  unfold wf, reset; simpl. intros (Hl & He & Hr & Hh & Ha).
  assert (in_range 0) by (apply small_in_range; lia).
  split_all; assumption.
Qed.

End Invariant.

(* ================================================================= *)
(** ** First call, reset and the setters *)

Section FirstCallAndConfiguration.
Context {W : IntWidth}.
Import CInt.

Lemma new_isFirstCall (e : SRL_SmoothingExponent) (rate hystBand slope : Z) :
  isFirstCall (new_SlewRateLimiter e rate hystBand slope) = true.
Proof. reflexivity. Qed.

Lemma reset_isFirstCall (s : SlewRateLimiter) : isFirstCall (reset s) = true.
Proof. reflexivity. Qed.

Lemma first_call_result (s : SlewRateLimiter) (x : Z) :
  isFirstCall s = true ->
  fst (processValue s x) = x /\
  lastValue (snd (processValue s x)) = x /\
  emaValue (snd (processValue s x)) = x /\
  isFirstCall (snd (processValue s x)) = false.
Proof.
  intros Hf. rewrite (processValue_first s x Hf). simpl. auto.
Qed.

(** C3. For any input [x], the first [processValue x] on a freshly
    constructed object, and on an object that has just been [reset],
    returns [x] itself and leaves [lastValue = x], [emaValue = x] and
    the object marked as initialised ([isFirstCall = false]). *)
Theorem first_call_passthrough :
  (forall (e : SRL_SmoothingExponent) (rate hystBand slope x : Z),
     let r := processValue (new_SlewRateLimiter e rate hystBand slope) x in
     fst r = x /\ lastValue (snd r) = x /\ emaValue (snd r) = x /\
     isFirstCall (snd r) = false) /\
  (forall (s : SlewRateLimiter) (x : Z),
     let r := processValue (reset s) x in
     fst r = x /\ lastValue (snd r) = x /\ emaValue (snd r) = x /\
     isFirstCall (snd r) = false).
Proof.
  split; intros; subst r; apply first_call_result.
  - apply new_isFirstCall.
  - apply reset_isFirstCall.
Qed.

(** C7. [reset] marks the object as not yet called, zeroes [lastValue]
    and [emaValue], keeps the four configuration members, and the next
    [processValue x] returns [x], whatever the object was before. *)
Theorem reset_clears_history_only (s : SlewRateLimiter) :
  isFirstCall (reset s) = true /\
  lastValue (reset s) = 0 /\
  emaValue (reset s) = 0 /\
  rateLimit (reset s) = rateLimit s /\
  hysteresisBand (reset s) = hysteresisBand s /\
  currentExponent (reset s) = currentExponent s /\
  adaptiveSlopeInternal (reset s) = adaptiveSlopeInternal s /\
  (forall x : Z, fst (processValue (reset s) x) = x).
Proof.
  split_all; [reflexivity .. | intros x].
  apply (first_call_result (reset s) x (reset_isFirstCall s)).
Qed.

Lemma setAdaptiveSlope_value (s : SlewRateLimiter) (slope : Z) :
  in_range (slope * 128) -> in_range (slope * 128 + 50) ->
  adaptiveSlopeInternal (setAdaptiveSlope s slope) =
    Z.quot (slope * 128 + 50) 100.
Proof.
  intros H1 H2. simpl. unfold div, add, mul.
  rewrite (wrap_id _ H1), (wrap_id _ H2).
  apply wrap_id.
  pose proof (quot_abs_le (slope * 128 + 50) 100 ltac:(lia)).
  pose proof half_ge. unfold in_range, INT_MIN, INT_MAX in *. lia.
Qed.

Lemma setAdaptiveSlope_zero (s : SlewRateLimiter) :
  adaptiveSlopeInternal (setAdaptiveSlope s 0) = 0.
Proof.
  rewrite setAdaptiveSlope_value; [reflexivity | |];
    apply small_in_range; lia.
Qed.

(** C8. Each setter changes its own configuration member only;
    [lastValue], [emaValue] and [isFirstCall] are never touched.
    [setRateLimit], [setHysteresisBand] and [setSmoothingExponent] store
    the argument as it is; [setAdaptiveSlope slope] stores
    [(slope * 128 + 50) / 100] (the C++ quotient, truncated toward zero)
    whenever [slope * 128 + 50] is computed without overflow, and a
    slope of 0 stores 0, which makes [allowedChange] the plain
    [rateLimit]. *)
Theorem setters_frame (s : SlewRateLimiter) :
  (forall limit : Z,
     let s' := setRateLimit s limit in
     rateLimit s' = limit /\
     lastValue s' = lastValue s /\ emaValue s' = emaValue s /\
     isFirstCall s' = isFirstCall s /\
     hysteresisBand s' = hysteresisBand s /\
     currentExponent s' = currentExponent s /\
     adaptiveSlopeInternal s' = adaptiveSlopeInternal s) /\
  (forall band : Z,
     let s' := setHysteresisBand s band in
     hysteresisBand s' = band /\
     lastValue s' = lastValue s /\ emaValue s' = emaValue s /\
     isFirstCall s' = isFirstCall s /\
     rateLimit s' = rateLimit s /\
     currentExponent s' = currentExponent s /\
     adaptiveSlopeInternal s' = adaptiveSlopeInternal s) /\
  (forall exponent : SRL_SmoothingExponent,
     let s' := setSmoothingExponent s exponent in
     currentExponent s' = exponent /\
     lastValue s' = lastValue s /\ emaValue s' = emaValue s /\
     isFirstCall s' = isFirstCall s /\
     rateLimit s' = rateLimit s /\
     hysteresisBand s' = hysteresisBand s /\
     adaptiveSlopeInternal s' = adaptiveSlopeInternal s) /\
  (forall slope : Z,
     let s' := setAdaptiveSlope s slope in
     (in_range (slope * 128) -> in_range (slope * 128 + 50) ->
      adaptiveSlopeInternal s' = Z.quot (slope * 128 + 50) 100) /\
     lastValue s' = lastValue s /\ emaValue s' = emaValue s /\
     isFirstCall s' = isFirstCall s /\
     rateLimit s' = rateLimit s /\
     hysteresisBand s' = hysteresisBand s /\
     currentExponent s' = currentExponent s) /\
  adaptiveSlopeInternal (setAdaptiveSlope s 0) = 0 /\
  (forall delta : Z, allowedChange (setAdaptiveSlope s 0) delta = rateLimit s).
Proof.
  split; [intros limit s'; subst s'; simpl; repeat split |].
  split; [intros band s'; subst s'; simpl; repeat split |].
  split; [intros exponent s'; subst s'; simpl; repeat split |].
  split.
  - intros slope s'; subst s'.
    split; [apply setAdaptiveSlope_value | simpl; repeat split].
  - split; [apply setAdaptiveSlope_zero |].
    intros delta. unfold allowedChange.
    rewrite setAdaptiveSlope_zero. reflexivity.
Qed.

(** C9. The value returned by a non-first [processValue] call, and the
    [lastValue] it leaves, are functions of [lastValue], [rateLimit],
    [hysteresisBand], [adaptiveSlopeInternal] and the input alone:
    two initialised objects that agree on these four members return the
    same value and end with the same [lastValue], whatever their
    [emaValue] and [currentExponent] are. *)
Theorem output_independent_of_ema (s1 s2 : SlewRateLimiter) (x : Z) :
  isFirstCall s1 = false -> isFirstCall s2 = false ->
  lastValue s1 = lastValue s2 ->
  rateLimit s1 = rateLimit s2 ->
  hysteresisBand s1 = hysteresisBand s2 ->
  adaptiveSlopeInternal s1 = adaptiveSlopeInternal s2 ->
  fst (processValue s1 x) = fst (processValue s2 x) /\
  lastValue (snd (processValue s1 x)) = lastValue (snd (processValue s2 x)).
Proof.
  intros Hf1 Hf2 Hl Hr Hh Ha.
  rewrite (processValue_next s1 x Hf1), (processValue_next s2 x Hf2). simpl.
  assert (snappedValue s1 x = snappedValue s2 x) as ->; [| split; reflexivity].
  unfold snappedValue, steppedValue, allowedChange.
  rewrite Hl, Hr, Hh, Ha. reflexivity.
Qed.

End FirstCallAndConfiguration.

(* ================================================================= *)
(** ** Rate limiting and hysteresis in fixed-rate mode *)

Section FixedMode.
Context {W : IntWidth}.
Import CInt.

Lemma sub_math (a b : Z) : Z.abs (a - b) <= INT_MAX -> sub a b = a - b.
Proof.
  intros H. apply wrap_id. unfold in_range, INT_MIN, INT_MAX in *. lia.
Qed.

(** The rate-limiting block over the mathematical integers, when the
    adaptive term is off and the distance to the input is representable. *)
Lemma steppedValue_fixed (s : SlewRateLimiter) (x : Z) :
  adaptiveSlopeInternal s = 0 ->
  0 <= rateLimit s -> in_range (rateLimit s) ->
  in_range (lastValue s) -> in_range x ->
  Z.abs (x - lastValue s) <= INT_MAX ->
  steppedValue s x =
    if rateLimit s <? x - lastValue s then lastValue s + rateLimit s
    else if x - lastValue s <? - rateLimit s then lastValue s - rateLimit s
    else x.
Proof.
  intros Ha Hr0 Hr Hl Hx Hd.
  unfold steppedValue, allowedChange. rewrite Ha. simpl negb. cbv iota.
  rewrite (sub_math _ _ Hd).
  unfold neg. rewrite (wrap_id (- rateLimit s))
    by (unfold in_range, INT_MIN, INT_MAX in *; lia).
  destruct (Z.ltb_spec (rateLimit s) (x - lastValue s)).
  - apply wrap_id. unfold in_range, INT_MIN, INT_MAX in *. lia.
  - destruct (Z.ltb_spec (x - lastValue s) (- rateLimit s)); [| reflexivity].
    apply wrap_id. unfold in_range, INT_MIN, INT_MAX in *. lia.
Qed.

(** The hysteresis test compares the mathematical distance as soon as
    that distance is representable. *)
Lemma snappedValue_math (s : SlewRateLimiter) (x : Z) :
  Z.abs (x - steppedValue s x) <= INT_MAX ->
  snappedValue s x =
    if Z.abs (x - steppedValue s x) <=? hysteresisBand s
    then x else steppedValue s x.
Proof.
  intros H. unfold snappedValue.
  rewrite (sub_math _ _ H), (abs_math _ H). reflexivity.
Qed.

(** C5. On a non-first call, when the value reached by the
    rate-limiting step is within [hysteresisBand] of the input, the call
    returns the input itself, not the stepped value, and [lastValue] is
    the input afterwards. *)
Theorem hysteresis_snap (s : SlewRateLimiter) (x : Z) :
  isFirstCall s = false ->
  in_range (hysteresisBand s) ->
  Z.abs (x - steppedValue s x) <= hysteresisBand s ->
  fst (processValue s x) = x /\ lastValue (snd (processValue s x)) = x.
Proof.
  intros Hf Hh Hgap. rewrite (processValue_next s x Hf). simpl.
  assert (snappedValue s x = x) as ->; [| split; reflexivity].
  rewrite snappedValue_math
    by (unfold in_range, INT_MIN, INT_MAX in *; lia).
  destruct (Z.leb_spec (Z.abs (x - steppedValue s x)) (hysteresisBand s));
    [reflexivity | lia].
Qed.

(** One non-first call in fixed-rate mode, over the mathematical
    integers. *)
Lemma snappedValue_fixed (s : SlewRateLimiter) (x : Z) :
  adaptiveSlopeInternal s = 0 ->
  0 <= rateLimit s -> in_range (rateLimit s) ->
  in_range (lastValue s) -> in_range x ->
  Z.abs (x - lastValue s) <= INT_MAX ->
  snappedValue s x =
    let stepped :=
      if rateLimit s <? x - lastValue s then lastValue s + rateLimit s
      else if x - lastValue s <? - rateLimit s then lastValue s - rateLimit s
      else x in
    if Z.abs (x - stepped) <=? hysteresisBand s then x else stepped.
Proof.
  intros Ha Hr0 Hr Hl Hx Hd.
  pose proof (steppedValue_fixed s x Ha Hr0 Hr Hl Hx Hd) as Hst.
  rewrite snappedValue_math; rewrite Hst; [reflexivity |].
  destruct (Z.ltb_spec (rateLimit s) (x - lastValue s));
    [| destruct (Z.ltb_spec (x - lastValue s) (- rateLimit s))]; lia.
Qed.

(** C10. In fixed-rate mode with a non-negative [rateLimit] and a
    non-negative [hysteresisBand], a non-first call moves the output by
    at most [rateLimit + hysteresisBand] from the previous [lastValue]
    (the distance from the previous output to the input being
    representable in [int]). *)
Theorem fixed_step_within_rate_plus_band (s : SlewRateLimiter) (x : Z) :
  isFirstCall s = false ->
  adaptiveSlopeInternal s = 0 ->
  0 <= rateLimit s -> 0 <= hysteresisBand s ->
  in_range (rateLimit s) -> in_range (lastValue s) -> in_range x ->
  Z.abs (x - lastValue s) <= INT_MAX ->
  Z.abs (fst (processValue s x) - lastValue s)
    <= rateLimit s + hysteresisBand s.
Proof.
  intros Hf Ha Hr0 Hh0 Hr Hl Hx Hd.
  rewrite (processValue_next s x Hf). simpl.
  rewrite (snappedValue_fixed s x Ha Hr0 Hr Hl Hx Hd). cbv zeta.
  destruct (Z.ltb_spec (rateLimit s) (x - lastValue s));
    [| destruct (Z.ltb_spec (x - lastValue s) (- rateLimit s))];
    match goal with |- context [?a <=? ?b] => destruct (Z.leb_spec a b) end;
    lia.
Qed.

(** With no hysteresis band the call returns the stepped value, which
    lies within [rateLimit] of the previous output and exactly
    [rateLimit] away once the input is that far or farther. *)
Lemma fixed_step_no_band (s : SlewRateLimiter) (x : Z) :
  isFirstCall s = false ->
  adaptiveSlopeInternal s = 0 -> hysteresisBand s = 0 ->
  0 <= rateLimit s ->
  in_range (rateLimit s) -> in_range (lastValue s) -> in_range x ->
  Z.abs (x - lastValue s) <= INT_MAX ->
  Z.abs (fst (processValue s x) - lastValue s) <= rateLimit s /\
  (rateLimit s <= Z.abs (x - lastValue s) ->
   Z.abs (fst (processValue s x) - lastValue s) = rateLimit s).
Proof.
  intros Hf Ha Hh Hr0 Hr Hl Hx Hd.
  rewrite (processValue_next s x Hf). simpl.
  rewrite (snappedValue_fixed s x Ha Hr0 Hr Hl Hx Hd). cbv zeta. rewrite Hh.
  destruct (Z.ltb_spec (rateLimit s) (x - lastValue s));
    [| destruct (Z.ltb_spec (x - lastValue s) (- rateLimit s))];
    match goal with |- context [?a <=? ?b] => destruct (Z.leb_spec a b) end;
    lia.
Qed.

(** C4. With [adaptiveSlopeInternal = 0] and [hysteresisBand = 0], two
    consecutive calls with inputs [x0] then [x1] return [output0] then
    [output1] with [|output1 - output0| <= rateLimit], and with equality
    whenever [|x1 - output0| >= rateLimit].  [rateLimit] is non-negative,
    as the data model requires, and the distance [x1 - output0] is
    representable in [int]. *)
Theorem fixed_mode_bound (s : SlewRateLimiter) (x0 x1 : Z) :
  wf s -> in_range x0 -> in_range x1 ->
  adaptiveSlopeInternal s = 0 -> hysteresisBand s = 0 ->
  0 <= rateLimit s ->
  let output0 := fst (processValue s x0) in
  let output1 := fst (processValue (snd (processValue s x0)) x1) in
  Z.abs (x1 - output0) <= INT_MAX ->
  Z.abs (output1 - output0) <= rateLimit s /\
  (rateLimit s <= Z.abs (x1 - output0) ->
   Z.abs (output1 - output0) = rateLimit s).
Proof.
  intros Hwf Hx0 Hx1 Ha Hh Hr0 output0 output1 Hd. subst output0 output1.
  destruct (processValue_post s x0) as (Hf' & Hl' & _ & Hr' & Hh' & Ha').
  destruct (processValue_wf s x0 Hwf Hx0) as ((Hl1 & _ & Hr1 & _) & _).
  set (s1 := snd (processValue s x0)) in *.
  rewrite <- Hl' in *. rewrite <- Hr'.
  apply fixed_step_no_band; try assumption; congruence.
Qed.

End FixedMode.

(* ================================================================= *)
(** ** The EMA update *)

Section EMA.
Context {W : IntWidth}.
Import CInt.

(** [updateEMA] over the mathematical integers: the numerator shifted
    right by 10, that is, divided by 1024 and rounded toward minus
    infinity. *)
Lemma updateEMA_floor (x ema : Z) (e : SRL_SmoothingExponent) :
  ema_fits x ema (exponent_value e) ->
  updateEMA x ema e = ema_numerator x ema (exponent_value e) / 1024.
Proof.
  unfold ema_fits, ema_numerator. intros (H1 & H2 & H3 & H4 & H5).
  pose proof (exponent_value_bounds e) as He.
  unfold updateEMA. cbv zeta.
  rewrite (shl_mul x (exponent_value e)) by (lia || assumption).
  rewrite (shl_mul ema 10) by (lia || exact H2).
  rewrite (shl_mul ema (exponent_value e)) by (lia || assumption).
  change (2 ^ 10) with 1024.
  unfold add, sub.
  rewrite (wrap_id _ H4), (wrap_id _ H5).
  rewrite shr_div by lia. reflexivity.
Qed.

(** Floor and truncation agree exactly on non-negative numerators and on
    multiples of the divisor. *)
Lemma floor_is_truncation_iff (n : Z) :
  n / 1024 = Z.quot n 1024 <-> 0 <= n \/ n mod 1024 = 0.
Proof.
  pose proof (Z.div_mod n 1024 ltac:(lia)) as Hd.
  pose proof (Z.mod_pos_bound n 1024 ltac:(lia)) as Hm.
  pose proof (Z.quot_rem' n 1024) as Hq.
  pose proof (Z.rem_bound_abs n 1024 ltac:(lia)) as Hr.
  pose proof (Z.rem_sign_mul n 1024 ltac:(lia)) as Hs.
  split.
  - intros Heq. destruct (Z_le_gt_dec 0 n); [left; assumption | right]. nia.
  - intros [Hn | Hz].
    + symmetry. apply Z.quot_div_nonneg; lia.
    + nia.
Qed.

(** C2, as the code has it. On every call after the first, when no step
    of the computation overflows, the new [emaValue] is
    [(input * 2^shift + ema * 1024 - ema * 2^shift)] divided by 1024 and
    rounded toward minus infinity (an arithmetic right shift by 10); it
    is the quotient truncated toward zero exactly when the numerator is
    non-negative or a multiple of 1024. *)
Theorem ema_update_is_floor (s : SlewRateLimiter) (x : Z) :
  isFirstCall s = false ->
  ema_fits x (emaValue s) (exponent_value (currentExponent s)) ->
  let shift := exponent_value (currentExponent s) in
  let ema' := emaValue (snd (processValue s x)) in
  ema' = ema_numerator x (emaValue s) shift / 1024 /\
  (ema' = ema_truncating x (emaValue s) shift <->
   0 <= ema_numerator x (emaValue s) shift \/
   ema_numerator x (emaValue s) shift mod 1024 = 0).
Proof.
  intros Hf Hfit shift ema'. subst shift ema'.
  rewrite (processValue_next s x Hf). simpl.
  rewrite (updateEMA_floor _ _ _ Hfit).
  split; [reflexivity |].
  unfold ema_truncating. apply floor_is_truncation_iff.
Qed.

End EMA.

(* ================================================================= *)
(** ** The adaptive step *)

Section Adaptive.
Context {W : IntWidth}.
Import CInt.

(** The scaled gain of a positive percentage is positive. *)
Lemma setAdaptiveSlope_pos (s : SlewRateLimiter) (p : Z) :
  0 < p -> in_range (p * 128 + 50) ->
  adaptiveSlopeInternal (setAdaptiveSlope s p) = Z.quot (p * 128 + 50) 100 /\
  0 < Z.quot (p * 128 + 50) 100.
Proof.
  intros Hp Hr.
  assert (in_range (p * 128)) as Hr'
    by (pose proof half_ge; unfold in_range, INT_MIN, INT_MAX in *; lia).
  split; [apply setAdaptiveSlope_value; assumption |].
  apply Z.quot_str_pos; lia.
Qed.

(** [allowedChange] over the mathematical integers when the adaptive
    term is on and computed without overflow. *)
Lemma allowedChange_adaptive (s : SlewRateLimiter) (delta : Z) :
  adaptiveSlopeInternal s <> 0 -> allowed_fits s delta ->
  allowedChange s delta =
    rateLimit s + Z.abs delta * adaptiveSlopeInternal s / 128.
Proof.
  intros Ha (Hd & Hm & Hsum). unfold allowedChange.
  destruct (Z.eqb_spec (adaptiveSlopeInternal s) 0); [contradiction |].
  simpl negb. cbv iota.
  rewrite (abs_math _ Hd). unfold mul. rewrite (wrap_id _ Hm).
  rewrite shr_div by lia. change (2 ^ 7) with 128.
  apply wrap_id; assumption.
Qed.

(** [allowed_fits] is inherited by every smaller distance when the gain
    is non-negative. *)
Lemma allowed_fits_smaller (s : SlewRateLimiter) (d1 d2 : Z) :
  0 <= adaptiveSlopeInternal s -> in_range (rateLimit s) ->
  Z.abs d1 <= Z.abs d2 -> allowed_fits s d2 -> allowed_fits s d1.
Proof.
  intros Ha Hr Hle (Hd & Hm & Hsum). pose proof half_ge.
  assert (Z.abs d1 * adaptiveSlopeInternal s
          <= Z.abs d2 * adaptiveSlopeInternal s) by nia.
  assert (0 <= Z.abs d1 * adaptiveSlopeInternal s) by nia.
  pose proof (Z.div_le_mono _ _ 128 ltac:(lia) H0).
  pose proof (Z.div_pos (Z.abs d1 * adaptiveSlopeInternal s) 128
                H1 ltac:(lia)).
  unfold allowed_fits, in_range, INT_MIN, INT_MAX in *. lia.
Qed.

Lemma allowedChange_monotone_in_delta (s : SlewRateLimiter) (p d1 d2 : Z) :
  0 < p -> in_range (p * 128 + 50) -> in_range (rateLimit s) ->
  Z.abs d1 <= Z.abs d2 ->
  allowed_fits (setAdaptiveSlope s p) d2 ->
  allowedChange (setAdaptiveSlope s p) d1
    <= allowedChange (setAdaptiveSlope s p) d2.
Proof.
  intros Hp Hpr Hr Hle Hfit.
  destruct (setAdaptiveSlope_pos s p Hp Hpr) as (Hval & Hpos).
  assert (0 < adaptiveSlopeInternal (setAdaptiveSlope s p)) as Ha
    by (rewrite Hval; exact Hpos).
  pose proof (allowed_fits_smaller (setAdaptiveSlope s p) d1 d2
                (Z.lt_le_incl _ _ Ha) Hr Hle Hfit) as Hfit1.
  rewrite !allowedChange_adaptive by (assumption || lia).
  apply Z.add_le_mono_l. apply Z.div_le_mono; [lia | nia].
Qed.

Lemma allowedChange_monotone_in_slope (s : SlewRateLimiter) (p delta : Z) :
  0 < p -> in_range (2 * p * 128 + 50) ->
  allowed_fits (setAdaptiveSlope s p) delta ->
  allowed_fits (setAdaptiveSlope s (2 * p)) delta ->
  allowedChange (setAdaptiveSlope s p) delta
    <= allowedChange (setAdaptiveSlope s (2 * p)) delta.
Proof.
  intros Hp Hpr Hfit1 Hfit2.
  assert (in_range (p * 128 + 50)) as Hpr1
    by (pose proof half_ge; unfold in_range, INT_MIN, INT_MAX in *; lia).
  destruct (setAdaptiveSlope_pos s p Hp Hpr1) as (Hv1 & Hpos1).
  destruct (setAdaptiveSlope_pos s (2 * p) ltac:(lia) Hpr) as (Hv2 & Hpos2).
  rewrite !allowedChange_adaptive by (assumption || lia).
  rewrite Hv1, Hv2. simpl rateLimit.
  apply Z.add_le_mono_l. apply Z.div_le_mono; [lia |].
  apply Z.mul_le_mono_nonneg_l; [lia |].
  apply Z.quot_le_mono; lia.
Qed.

(** C6. For a fixed [rateLimit] and an adaptive slope percentage
    [p > 0], [allowedChange = rateLimit + (|delta| * scaled) >> 7] does
    not decrease when [|delta|] grows; and for every [delta], the
    percentage [2 * p] allows at least the step that [p] allows (the
    operations involved staying within [int]). *)
Theorem adaptive_monotonicity (s : SlewRateLimiter) :
  in_range (rateLimit s) ->
  (forall p d1 d2 : Z,
     0 < p -> in_range (p * 128 + 50) ->
     Z.abs d1 <= Z.abs d2 ->
     allowed_fits (setAdaptiveSlope s p) d2 ->
     allowedChange (setAdaptiveSlope s p) d1
       <= allowedChange (setAdaptiveSlope s p) d2) /\
  (forall p delta : Z,
     0 < p -> in_range (2 * p * 128 + 50) ->
     allowed_fits (setAdaptiveSlope s p) delta ->
     allowed_fits (setAdaptiveSlope s (2 * p)) delta ->
     allowedChange (setAdaptiveSlope s p) delta
       <= allowedChange (setAdaptiveSlope s (2 * p)) delta) /\
  (forall p delta : Z,
     0 < p -> in_range (p * 128 + 50) ->
     allowed_fits (setAdaptiveSlope s p) delta ->
     allowedChange (setAdaptiveSlope s p) delta =
       rateLimit s + Z.abs delta * Z.quot (p * 128 + 50) 100 / 2 ^ 7).
Proof.
  intros Hr. split_all.
  - intros p d1 d2 Hp Hpr Hle Hfit.
    apply allowedChange_monotone_in_delta; assumption.
  - intros p delta. apply allowedChange_monotone_in_slope.
  - intros p delta Hp Hpr Hfit.
    destruct (setAdaptiveSlope_pos s p Hp Hpr) as (Hval & Hpos).
    rewrite allowedChange_adaptive by (assumption || lia).
    rewrite Hval. reflexivity.
Qed.

End Adaptive.

(* ================================================================= *)
(** ** The documented scenario *)

Section Scenario.
Context {W : IntWidth}.
Import CInt.

Lemma new_fixed_mode (e : SRL_SmoothingExponent) (rate hystBand : Z) :
  new_SlewRateLimiter e rate hystBand 0 =
    mkSlewRateLimiter 0 0 true e rate hystBand 0.
Proof.
  unfold new_SlewRateLimiter.
  pose proof (setAdaptiveSlope_zero
                (mkSlewRateLimiter 0 0 true e rate hystBand 0)) as Hz.
  unfold setAdaptiveSlope in *. simpl in *. rewrite Hz. reflexivity.
Qed.

(** One non-first call in fixed-rate mode on small values, with the
    returned value computed over the mathematical integers. *)
Lemma tracking_step (last ema rate hystBand x out : Z)
    (e : SRL_SmoothingExponent) :
  0 <= rate <= 16000 ->
  -16000 <= last <= 16000 -> -16000 <= x <= 16000 ->
  out =
    (let stepped :=
       if rate <? x - last then last + rate
       else if x - last <? - rate then last - rate
       else x in
     if Z.abs (x - stepped) <=? hystBand then x else stepped) ->
  processValue (mkSlewRateLimiter last ema false e rate hystBand 0) x =
    (out, mkSlewRateLimiter out (updateEMA x ema e) false e rate hystBand 0).
Proof.
  intros Hr Hl Hx Hout. subst out.
  rewrite processValue_next by reflexivity.
  rewrite snappedValue_fixed;
    cbn [lastValue emaValue currentExponent rateLimit hysteresisBand
         adaptiveSlopeInternal];
    [reflexivity | reflexivity | lia | ..];
    apply small_in_range; lia.
Qed.

(** C1, as the code has it. In fixed mode with [rateLimit = 5],
    [hysteresisBand = 2] and adaptive slope 0, a fresh object fed the
    inputs [0, 20, 20, 20], one [processValue] call each, returns
    [0, 5, 10, 15]: on the fourth call [delta = 10] still exceeds the
    limit, so the output steps to 15, which is not within the band of
    20. *)
Theorem scenario_fixed_mode (e : SRL_SmoothingExponent) :
  fst (processValues (new_SlewRateLimiter e 5 2 0) [0; 20; 20; 20])
    = [0; 5; 10; 15].
Proof.
  rewrite new_fixed_mode. unfold processValues.
  rewrite processValue_first by reflexivity. simpl currentExponent.
  cbv beta iota.
  rewrite (tracking_step 0 _ 5 2 20 5) by (reflexivity || lia).
  rewrite (tracking_step 5 _ 5 2 20 10) by (reflexivity || lia).
  rewrite (tracking_step 10 _ 5 2 20 15) by (reflexivity || lia).
  reflexivity.
Qed.

End Scenario.

(* ================================================================= *)
(** ** Concrete runs on a 32-bit and on a 16-bit [int] *)

Import CInt.

(** Closes a closed statement about concrete integers by evaluation. *)
Ltac by_evaluation :=
  vm_compute; split_all;
  first [ reflexivity | discriminate | intro; discriminate ].

(** Against C1 as stated: the outputs [0, 5, 10, 20] are not what the
    object returns; the fourth output is 15, not 20. *)
Lemma scenario_fixed_mode_not_20 :
  fst (processValues (W := int32)
         (new_SlewRateLimiter SRL_SMOOTHING_4 5 2 0) [0; 20; 20; 20])
    <> [0; 5; 10; 20].
Proof. by_evaluation. Qed.

(** Against C2 as stated: after [processValue 0] on a fresh object,
    [processValue (-1)] leaves [emaValue = -1], whereas the truncating
    quotient of the numerator [-4] by 1024 is 0. *)
Lemma ema_update_not_truncating :
  let s := snd (processValue (W := int32)
                  (new_SlewRateLimiter SRL_SMOOTHING_4 5 2 0) 0) in
  isFirstCall s = false /\
  emaValue (snd (processValue (W := int32) s (-1))) = -1 /\
  ema_truncating (-1) (emaValue s) (exponent_value (currentExponent s)) = 0 /\
  emaValue (snd (processValue (W := int32) s (-1))) <>
    ema_truncating (-1) (emaValue s) (exponent_value (currentExponent s)).
Proof. by_evaluation. Qed.

Lemma ema_update_is_floor_witness :
  let s := tracking 0 0 5 2 in
  isFirstCall s = false /\
  ema_fits (W := int32) (-1) (emaValue s)
    (exponent_value (currentExponent s)) /\
  emaValue (snd (processValue (W := int32) s (-1))) =
    ema_numerator (-1) (emaValue s) (exponent_value (currentExponent s))
      / 1024.
Proof.
  assert (Hfit : ema_fits (W := int32) (-1) 0 2) by by_evaluation.
  split; [reflexivity |]. split; [exact Hfit |].
  exact (proj1 (ema_update_is_floor (W := int32) (tracking 0 0 5 2) (-1)
                  eq_refl Hfit)).
Defined.

Lemma fixed_mode_bound_witness :
  let s := new_SlewRateLimiter (W := int32) SRL_SMOOTHING_4 5 0 0 in
  let output0 := fst (processValue (W := int32) s 0) in
  let output1 :=
    fst (processValue (W := int32) (snd (processValue (W := int32) s 0)) 20) in
  wf (W := int32) s /\
  Z.abs (20 - output0) <= INT_MAX (W := int32) /\
  Z.abs (output1 - output0) <= rateLimit s /\
  (rateLimit s <= Z.abs (20 - output0) ->
   Z.abs (output1 - output0) = rateLimit s).
Proof.
  assert (Hwf : wf (W := int32)
                  (new_SlewRateLimiter (W := int32) SRL_SMOOTHING_4 5 0 0))
    by by_evaluation.
  assert (H0 : in_range (W := int32) 0) by by_evaluation.
  assert (H20 : in_range (W := int32) 20) by by_evaluation.
  assert (Hd : Z.abs (20 - 0) <= INT_MAX (W := int32)) by by_evaluation.
  split; [exact Hwf |]. split; [exact Hd |].
  apply (fixed_mode_bound (W := int32)
           (new_SlewRateLimiter (W := int32) SRL_SMOOTHING_4 5 0 0) 0 20
           Hwf H0 H20 eq_refl eq_refl); [by_evaluation | exact Hd].
Defined.

Lemma hysteresis_snap_witness :
  let s := tracking 0 0 5 2 in
  isFirstCall s = false /\
  in_range (W := int32) (hysteresisBand s) /\
  Z.abs (7 - steppedValue (W := int32) s 7) <= hysteresisBand s /\
  fst (processValue (W := int32) s 7) = 7 /\
  lastValue (snd (processValue (W := int32) s 7)) = 7.
Proof.
  assert (Hh : in_range (W := int32) 2) by by_evaluation.
  assert (Hgap : Z.abs (7 - steppedValue (W := int32) (tracking 0 0 5 2) 7)
                 <= 2) by by_evaluation.
  split; [reflexivity |]. split; [exact Hh |]. split; [exact Hgap |].
  exact (hysteresis_snap (W := int32) (tracking 0 0 5 2) 7 eq_refl Hh Hgap).
Defined.

Lemma fixed_step_within_rate_plus_band_witness :
  let s := tracking 0 0 5 2 in
  isFirstCall s = false /\ adaptiveSlopeInternal s = 0 /\
  0 <= rateLimit s /\ 0 <= hysteresisBand s /\
  in_range (W := int16) (rateLimit s) /\
  in_range (W := int16) (lastValue s) /\ in_range (W := int16) 7 /\
  Z.abs (7 - lastValue s) <= INT_MAX (W := int16) /\
  Z.abs (fst (processValue (W := int16) s 7) - lastValue s)
    <= rateLimit s + hysteresisBand s.
Proof.
  assert (Hr : in_range (W := int16) 5) by by_evaluation.
  assert (Hl : in_range (W := int16) 0) by by_evaluation.
  assert (Hx : in_range (W := int16) 7) by by_evaluation.
  assert (Hd : Z.abs (7 - 0) <= INT_MAX (W := int16)) by by_evaluation.
  assert (Hr0 : 0 <= 5) by by_evaluation.
  assert (Hh0 : 0 <= 2) by by_evaluation.
  split; [reflexivity |]. split; [reflexivity |].
  split; [exact Hr0 |]. split; [exact Hh0 |].
  split; [exact Hr |]. split; [exact Hl |].
  split; [exact Hx |]. split; [exact Hd |].
  exact (fixed_step_within_rate_plus_band (W := int16) (tracking 0 0 5 2) 7
           eq_refl eq_refl Hr0 Hh0 Hr Hl Hx Hd).
Defined.

Lemma output_independent_of_ema_witness :
  let s1 := mkSlewRateLimiter 0 0 false SRL_SMOOTHING_4 5 2 64 in
  let s2 := mkSlewRateLimiter 0 777 false SRL_SMOOTHING_512 5 2 64 in
  fst (processValue (W := int32) s1 100)
    = fst (processValue (W := int32) s2 100) /\
  lastValue (snd (processValue (W := int32) s1 100))
    = lastValue (snd (processValue (W := int32) s2 100)).
Proof.
  exact (output_independent_of_ema (W := int32)
           (mkSlewRateLimiter 0 0 false SRL_SMOOTHING_4 5 2 64)
           (mkSlewRateLimiter 0 777 false SRL_SMOOTHING_512 5 2 64) 100
           eq_refl eq_refl eq_refl eq_refl eq_refl eq_refl).
Defined.

Lemma setters_frame_witness :
  let s := tracking 3 4 5 2 in
  in_range (W := int32) (50 * 128) /\
  in_range (W := int32) (50 * 128 + 50) /\
  adaptiveSlopeInternal (setAdaptiveSlope (W := int32) s 50) = 64 /\
  rateLimit (setRateLimit s 9) = 9 /\
  lastValue (setRateLimit s 9) = 3.
Proof.
  assert (H1 : in_range (W := int32) (50 * 128)) by by_evaluation.
  assert (H2 : in_range (W := int32) (50 * 128 + 50)) by by_evaluation.
  pose proof (setters_frame (W := int32) (tracking 3 4 5 2))
    as (Hrate & _ & _ & Hslope & _).
  split; [exact H1 |]. split; [exact H2 |].
  split; [exact (proj1 (Hslope 50) H1 H2) |].
  split; [exact (proj1 (Hrate 9)) | exact (proj1 (proj2 (Hrate 9)))].
Defined.

Lemma adaptive_monotonicity_witness :
  let s := tracking 0 0 5 2 in
  in_range (W := int32) (rateLimit s) /\
  allowed_fits (W := int32) (setAdaptiveSlope (W := int32) s 50) 100 /\
  allowed_fits (W := int32) (setAdaptiveSlope (W := int32) s (2 * 50)) 100 /\
  allowedChange (W := int32) (setAdaptiveSlope (W := int32) s 50) 10
    <= allowedChange (W := int32) (setAdaptiveSlope (W := int32) s 50) 100 /\
  allowedChange (W := int32) (setAdaptiveSlope (W := int32) s 50) 100
    <= allowedChange (W := int32)
         (setAdaptiveSlope (W := int32) s (2 * 50)) 100.
Proof.
  assert (Hr : in_range (W := int32) 5) by by_evaluation.
  assert (Hf1 : allowed_fits (W := int32)
                  (setAdaptiveSlope (W := int32) (tracking 0 0 5 2) 50) 100)
    by by_evaluation.
  assert (Hf2 : allowed_fits (W := int32)
                  (setAdaptiveSlope (W := int32) (tracking 0 0 5 2) (2 * 50))
                  100)
    by by_evaluation.
  pose proof (adaptive_monotonicity (W := int32) (tracking 0 0 5 2) Hr)
    as (Hdelta & Hslope & _).
  split; [exact Hr |]. split; [exact Hf1 |]. split; [exact Hf2 |].
  split.
  - apply (Hdelta 50 10 100); [by_evaluation .. | exact Hf1].
  - apply (Hslope 50 100); [by_evaluation .. | exact Hf1 | exact Hf2].
Defined.

(* ================================================================= *)
(** ** One call in any mode, over the mathematical integers *)

(** Case analysis on the closed form of the returned value. *)
Ltac step_cases a d :=
  destruct (Z.ltb_spec a d);
    [| destruct (Z.ltb_spec d (- a))];
    match goal with |- context [?u <=? ?v] => destruct (Z.leb_spec u v) end.

Section AnyMode.
Context {W : IntWidth}.
Import CInt.

Lemma allowedChange_in_range (s : SlewRateLimiter) (delta : Z) :
  in_range (rateLimit s) -> in_range (allowedChange s delta).
Proof.
  intros Hr. unfold allowedChange.
  destruct (negb _); [apply wrap_in_range | assumption].
Qed.

Lemma allowedChange_fixed (s : SlewRateLimiter) (delta : Z) :
  adaptiveSlopeInternal s = 0 -> allowedChange s delta = rateLimit s.
Proof. intros Ha. unfold allowedChange. rewrite Ha. reflexivity. Qed.

(** The allowed step is at least [rateLimit] when the gain is not
    negative. *)
Lemma allowedChange_ge_rate (s : SlewRateLimiter) (delta : Z) :
  0 <= adaptiveSlopeInternal s ->
  adaptiveSlopeInternal s = 0 \/ allowed_fits s delta ->
  rateLimit s <= allowedChange s delta.
Proof.
  intros Ha0 Hmode.
  destruct (Z.eq_dec (adaptiveSlopeInternal s) 0) as [Hz | Hnz].
  - rewrite (allowedChange_fixed _ _ Hz). lia.
  - destruct Hmode as [Hz | Hfit]; [contradiction |].
    rewrite (allowedChange_adaptive _ _ Hnz Hfit).
    assert (0 <= Z.abs delta * adaptiveSlopeInternal s) by nia.
    pose proof (Z.div_pos _ 128 H ltac:(lia)). lia.
Qed.

(** The rate-limiting block when the distance to the input is
    representable and the allowed step is not negative. *)
Lemma steppedValue_general (s : SlewRateLimiter) (x : Z) :
  in_range (rateLimit s) -> in_range (lastValue s) -> in_range x ->
  Z.abs (x - lastValue s) <= INT_MAX ->
  0 <= allowedChange s (x - lastValue s) ->
  steppedValue s x =
    let allowed := allowedChange s (x - lastValue s) in
    if allowed <? x - lastValue s then lastValue s + allowed
    else if x - lastValue s <? - allowed then lastValue s - allowed
    else x.
Proof.
  intros Hr Hl Hx Hd Ha0.
  pose proof (allowedChange_in_range s (x - lastValue s) Hr) as Har.
  unfold steppedValue. cbv zeta. rewrite (sub_math _ _ Hd).
  set (a := allowedChange s (x - lastValue s)) in *.
  unfold neg. rewrite (wrap_id (- a))
    by (unfold in_range, INT_MIN, INT_MAX in *; lia).
  destruct (Z.ltb_spec a (x - lastValue s)).
  - apply wrap_id. unfold in_range, INT_MIN, INT_MAX in *. lia.
  - destruct (Z.ltb_spec (x - lastValue s) (- a)); [| reflexivity].
    apply wrap_id. unfold in_range, INT_MIN, INT_MAX in *. lia.
Qed.

(** The returned value of a non-first call under the same conditions. *)
Lemma snappedValue_general (s : SlewRateLimiter) (x : Z) :
  in_range (rateLimit s) -> in_range (lastValue s) -> in_range x ->
  Z.abs (x - lastValue s) <= INT_MAX ->
  0 <= allowedChange s (x - lastValue s) ->
  snappedValue s x =
    let allowed := allowedChange s (x - lastValue s) in
    let stepped :=
      if allowed <? x - lastValue s then lastValue s + allowed
      else if x - lastValue s <? - allowed then lastValue s - allowed
      else x in
    if Z.abs (x - stepped) <=? hysteresisBand s then x else stepped.
Proof.
  intros Hr Hl Hx Hd Ha0.
  pose proof (steppedValue_general s x Hr Hl Hx Hd Ha0) as Hst.
  cbv zeta in Hst.
  rewrite snappedValue_math; rewrite Hst; [reflexivity |].
  set (a := allowedChange s (x - lastValue s)) in *.
  destruct (Z.ltb_spec a (x - lastValue s));
    [| destruct (Z.ltb_spec (x - lastValue s) (- a))]; lia.
Qed.

(** X1. No overshoot: with a non-negative [rateLimit] and a
    non-negative gain, a non-first call returns a value between the
    previous output and the input, ends included. *)
Theorem output_between_last_and_input (s : SlewRateLimiter) (x : Z) :
  isFirstCall s = false ->
  0 <= rateLimit s -> 0 <= adaptiveSlopeInternal s ->
  in_range (rateLimit s) -> in_range (lastValue s) -> in_range x ->
  Z.abs (x - lastValue s) <= INT_MAX ->
  adaptiveSlopeInternal s = 0 \/ allowed_fits s (x - lastValue s) ->
  Z.min (lastValue s) x <= fst (processValue s x) <= Z.max (lastValue s) x.
Proof.
  intros Hf Hr0 Ha0 Hr Hl Hx Hd Hmode.
  pose proof (allowedChange_ge_rate s (x - lastValue s) Ha0 Hmode) as Hge.
  rewrite (processValue_next s x Hf). simpl.
  rewrite (snappedValue_general s x Hr Hl Hx Hd ltac:(lia)). cbv zeta.
  set (a := allowedChange s (x - lastValue s)) in *.
  step_cases a (x - lastValue s); lia.
Qed.

(** X2. An input within the allowed step of the previous output is
    returned as it is. *)
Theorem input_within_allowed_step_passes (s : SlewRateLimiter) (x : Z) :
  isFirstCall s = false ->
  in_range (rateLimit s) -> in_range (lastValue s) -> in_range x ->
  Z.abs (x - lastValue s) <= INT_MAX ->
  Z.abs (x - lastValue s) <= allowedChange s (x - lastValue s) ->
  fst (processValue s x) = x /\ lastValue (snd (processValue s x)) = x.
Proof.
  intros Hf Hr Hl Hx Hd Hle.
  rewrite (processValue_next s x Hf). simpl.
  rewrite (snappedValue_general s x Hr Hl Hx Hd ltac:(lia)). cbv zeta.
  set (a := allowedChange s (x - lastValue s)) in *.
  step_cases a (x - lastValue s); split; lia.
Qed.

End AnyMode.

(* ================================================================= *)
(** ** Runs of several calls *)

Section Runs.
Context {W : IntWidth}.
Import CInt.

Lemma processValues_cons (s : SlewRateLimiter) (x : Z) (rest : list Z) :
  processValues s (x :: rest) =
    (fst (processValue s x)
       :: fst (processValues (snd (processValue s x)) rest),
     snd (processValues (snd (processValue s x)) rest)).
Proof.
  simpl. destruct (processValue s x) as [o s1]. simpl.
  destruct (processValues s1 rest) as [os s2]. reflexivity.
Qed.

(** The fixed-rate step response: what one call leaves of the distance
    to the input, and where the output goes while the input is farther
    than a step and the band. *)
Lemma fixed_step_progress (s : SlewRateLimiter) (x : Z) :
  isFirstCall s = false -> adaptiveSlopeInternal s = 0 ->
  0 <= rateLimit s ->
  in_range (rateLimit s) -> in_range (lastValue s) -> in_range x ->
  Z.abs (x - lastValue s) <= INT_MAX ->
  let out := fst (processValue s x) in
  Z.abs (x - out) <= Z.max 0 (Z.abs (x - lastValue s) - rateLimit s) /\
  (rateLimit s + Z.max 0 (hysteresisBand s) < x - lastValue s ->
   out = lastValue s + rateLimit s) /\
  (x - lastValue s < - (rateLimit s + Z.max 0 (hysteresisBand s)) ->
   out = lastValue s - rateLimit s).
Proof.
  intros Hf Ha Hr0 Hr Hl Hx Hd out. subst out.
  rewrite (processValue_next s x Hf). simpl.
  rewrite (snappedValue_fixed s x Ha Hr0 Hr Hl Hx Hd). cbv zeta.
  step_cases (rateLimit s) (x - lastValue s); split_all; lia.
Qed.

(** What a call keeps for the next one. *)
Lemma processValue_keeps (s : SlewRateLimiter) (x : Z) :
  in_range x ->
  let s1 := snd (processValue s x) in
  isFirstCall s1 = false /\ lastValue s1 = fst (processValue s x) /\
  in_range (lastValue s1) /\
  rateLimit s1 = rateLimit s /\ hysteresisBand s1 = hysteresisBand s /\
  adaptiveSlopeInternal s1 = adaptiveSlopeInternal s /\
  currentExponent s1 = currentExponent s.
Proof.
  intros Hx s1. subst s1.
  destruct (processValue_post s x) as (H1 & H2 & H3 & H4 & H5 & H6).
  split_all; try assumption.
  rewrite H2. unfold processValue. destruct (isFirstCall s); simpl;
    [assumption | apply snappedValue_in_range; assumption].
Qed.

(** X3. Fixed-rate mode, constant input: as soon as [n] steps of
    [rateLimit] cover the distance from the last output to the input,
    [n] calls bring [lastValue] onto the input. *)
Theorem fixed_mode_reaches_constant_input
    (s : SlewRateLimiter) (x : Z) (n : nat) :
  isFirstCall s = false -> adaptiveSlopeInternal s = 0 ->
  0 <= rateLimit s ->
  in_range (rateLimit s) -> in_range (lastValue s) -> in_range x ->
  Z.abs (x - lastValue s) <= INT_MAX ->
  Z.abs (x - lastValue s) <= Z.of_nat n * rateLimit s ->
  lastValue (snd (processValues s (repeat x n))) = x.
Proof.
  revert s x. induction n as [| n IH]; intros s x Hf Ha Hr0 Hr Hl Hx Hd Hn.
  - simpl in *. lia.
  - simpl repeat. rewrite processValues_cons. simpl snd.
    destruct (fixed_step_progress s x Hf Ha Hr0 Hr Hl Hx Hd) as (Hp & _).
    destruct (processValue_keeps s x Hx) as (K1 & K2 & K3 & K4 & _ & K6 & _).
    cbv zeta in *.
    apply IH; try assumption; try congruence; rewrite ?K4, ?K2; lia.
Qed.

(** X4. Fixed-rate mode, constant input: while the input is farther
    from the output than [n] steps plus the hysteresis band, [n] calls
    move [lastValue] by exactly [n * rateLimit] toward the input. *)
Theorem fixed_mode_ramps_linearly
    (s : SlewRateLimiter) (x : Z) (n : nat) :
  isFirstCall s = false -> adaptiveSlopeInternal s = 0 ->
  0 <= rateLimit s ->
  in_range (rateLimit s) -> in_range (lastValue s) -> in_range x ->
  Z.abs (x - lastValue s) <= INT_MAX ->
  (Z.of_nat n * rateLimit s + Z.max 0 (hysteresisBand s) < x - lastValue s ->
   lastValue (snd (processValues s (repeat x n)))
     = lastValue s + Z.of_nat n * rateLimit s) /\
  (x - lastValue s < - (Z.of_nat n * rateLimit s + Z.max 0 (hysteresisBand s)) ->
   lastValue (snd (processValues s (repeat x n)))
     = lastValue s - Z.of_nat n * rateLimit s).
Proof.
  revert s x. induction n as [| n IH]; intros s x Hf Ha Hr0 Hr Hl Hx Hd.
  - simpl. split; intros _; lia.
  - simpl repeat. rewrite processValues_cons. simpl snd.
    destruct (fixed_step_progress s x Hf Ha Hr0 Hr Hl Hx Hd)
      as (Hp & Hup & Hdown).
    destruct (processValue_keeps s x Hx) as (K1 & K2 & K3 & K4 & K5 & K6 & _).
    cbv zeta in *.
    assert (Hd' : Z.abs (x - lastValue (snd (processValue s x))) <= INT_MAX)
      by (rewrite K2; lia).
    destruct (IH (snd (processValue s x)) x K1 ltac:(congruence)
                ltac:(rewrite K4; exact Hr0) ltac:(rewrite K4; exact Hr)
                K3 Hx Hd') as (IHup & IHdown).
    rewrite K4, K5, K2 in IHup, IHdown.
    split; intros Hfar.
    + rewrite Hup in * by nia. rewrite IHup by nia. nia.
    + rewrite Hdown in * by nia. rewrite IHdown by nia. nia.
Qed.

End Runs.

(* ================================================================= *)
(** ** Equilibrium *)

Section Equilibrium.
Context {W : IntWidth}.
Import CInt.

Lemma wrap_zero : wrap 0 = 0.
Proof. apply wrap_id, small_in_range. lia. Qed.

Lemma sub_diag (a : Z) : sub a a = 0.
Proof. unfold sub. rewrite Z.sub_diag. apply wrap_zero. Qed.

(** With a zero [delta] the allowed step is [rateLimit], whatever the
    gain. *)
Lemma allowedChange_at_zero (s : SlewRateLimiter) :
  in_range (rateLimit s) -> allowedChange s 0 = rateLimit s.
Proof.
  intros Hr. unfold allowedChange.
  destruct (negb (adaptiveSlopeInternal s =? 0)); [| reflexivity].
  unfold abs, neg, mul, add. simpl (0 <? 0). cbv iota. simpl (- 0).
  rewrite wrap_zero, Z.mul_0_l, wrap_zero.
  unfold shr. rewrite Z.shiftr_0_l, Z.add_0_r.
  apply wrap_id; assumption.
Qed.

Lemma snappedValue_at_equilibrium (s : SlewRateLimiter) :
  0 <= rateLimit s -> in_range (rateLimit s) ->
  snappedValue s (lastValue s) = lastValue s.
Proof.
  intros Hr0 Hr.
  assert (Hst : steppedValue s (lastValue s) = lastValue s).
  { unfold steppedValue. cbv zeta.
    rewrite !sub_diag, (allowedChange_at_zero s Hr).
    unfold neg. rewrite (wrap_id (- rateLimit s))
      by (unfold in_range, INT_MIN, INT_MAX in *; lia).
    destruct (Z.ltb_spec (rateLimit s) 0); [lia |].
    destruct (Z.ltb_spec 0 (- rateLimit s)); [lia | reflexivity]. }
  unfold snappedValue. cbv zeta. rewrite Hst.
  destruct (_ <=? _); reflexivity.
Qed.

(** X5. Equilibrium: with a non-negative [rateLimit], in fixed or
    adaptive mode and for any hysteresis band, an object fed the same
    input [x] again and again, starting at its first call or at
    [lastValue = x], returns [x] at every call and, after at least one
    call, holds [lastValue = x]. *)
Theorem constant_input_is_returned_unchanged
    (s : SlewRateLimiter) (x : Z) (n : nat) :
  0 <= rateLimit s -> in_range (rateLimit s) ->
  isFirstCall s = true \/ lastValue s = x ->
  fst (processValues s (repeat x n)) = repeat x n /\
  (n <> 0%nat -> lastValue (snd (processValues s (repeat x n))) = x).
Proof.
  revert s x. induction n as [| n IH]; intros s x Hr0 Hr Hstart.
  - simpl. split; [reflexivity | intros H; contradiction].
  - simpl repeat. rewrite processValues_cons. simpl fst. simpl snd.
    assert (Hout : fst (processValue s x) = x).
    { unfold processValue. destruct (isFirstCall s) eqn:Hf; simpl;
        [reflexivity |].
      destruct Hstart as [Hc | Hl]; [discriminate |].
      subst x. apply snappedValue_at_equilibrium; assumption. }
    destruct (processValue_post s x) as (K1 & K2 & _ & K4 & _).
    cbv zeta in *.
    destruct (IH (snd (processValue s x)) x
                ltac:(rewrite K4; exact Hr0) ltac:(rewrite K4; exact Hr)
                ltac:(right; congruence)) as (IHo & IHl).
    rewrite Hout, IHo. split; [reflexivity | intros _].
    destruct n as [| n']; [simpl; congruence | apply IHl; discriminate].
Qed.

(** X6. No equilibrium under a negative [rateLimit]: in fixed-rate
    mode with [rateLimit < 0] and a hysteresis band smaller than
    [- rateLimit], feeding the last output back as the input moves the
    output by [rateLimit] away from it. *)
Theorem negative_rate_leaves_equilibrium (s : SlewRateLimiter) :
  isFirstCall s = false -> adaptiveSlopeInternal s = 0 ->
  rateLimit s < 0 -> hysteresisBand s < - rateLimit s ->
  in_range (- rateLimit s) ->
  in_range (lastValue s + rateLimit s) ->
  fst (processValue s (lastValue s)) = lastValue s + rateLimit s.
Proof.
  intros Hf Ha Hneg Hh Hnr Hsum.
  rewrite (processValue_next s _ Hf). simpl.
  assert (Hst : steppedValue s (lastValue s) = lastValue s + rateLimit s).
  { unfold steppedValue. cbv zeta.
    rewrite !sub_diag, (allowedChange_fixed s 0 Ha).
    destruct (Z.ltb_spec (rateLimit s) 0); [| lia].
    apply wrap_id; assumption. }
  rewrite snappedValue_math; rewrite Hst.
  - destruct (Z.leb_spec (Z.abs (lastValue s - (lastValue s + rateLimit s)))
                (hysteresisBand s)); [lia | reflexivity].
  - unfold in_range, INT_MIN, INT_MAX in *. lia.
Qed.

(** X7. A negative hysteresis band never snaps: the call returns the
    value reached by the rate-limiting step. *)
Theorem negative_band_never_snaps (s : SlewRateLimiter) (x : Z) :
  isFirstCall s = false -> hysteresisBand s < 0 ->
  Z.abs (x - steppedValue s x) <= INT_MAX ->
  fst (processValue s x) = steppedValue s x.
Proof.
  intros Hf Hh Hgap. rewrite (processValue_next s x Hf). simpl.
  rewrite (snappedValue_math s x Hgap).
  destruct (Z.leb_spec (Z.abs (x - steppedValue s x)) (hysteresisBand s));
    [lia | reflexivity].
Qed.

End Equilibrium.

(* ================================================================= *)
(** ** Closed forms: fixed rate, full slope, scaled gain *)

Section ClosedForms.
Context {W : IntWidth}.
Import CInt.

(** X8. Fixed-rate mode in closed form (non-negative [rateLimit] and
    band): a non-first call returns the input when it lies within
    [rateLimit + hysteresisBand] of the previous output, and otherwise
    the previous output moved by [rateLimit] toward the input. *)
Theorem fixed_mode_closed_form (s : SlewRateLimiter) (x : Z) :
  isFirstCall s = false -> adaptiveSlopeInternal s = 0 ->
  0 <= rateLimit s -> 0 <= hysteresisBand s ->
  in_range (rateLimit s) -> in_range (lastValue s) -> in_range x ->
  Z.abs (x - lastValue s) <= INT_MAX ->
  fst (processValue s x) =
    if Z.abs (x - lastValue s) <=? rateLimit s + hysteresisBand s then x
    else if lastValue s <? x then lastValue s + rateLimit s
    else lastValue s - rateLimit s.
Proof.
  intros Hf Ha Hr0 Hh0 Hr Hl Hx Hd.
  rewrite (processValue_next s x Hf). simpl.
  rewrite (snappedValue_fixed s x Ha Hr0 Hr Hl Hx Hd). cbv zeta.
  destruct (Z.leb_spec (Z.abs (x - lastValue s))
              (rateLimit s + hysteresisBand s));
    destruct (Z.ltb_spec (lastValue s) x);
    step_cases (rateLimit s) (x - lastValue s); lia.
Qed.

(** A percentage of 100 or more gives a gain of at least 128. *)
Lemma full_slope_gain (p : Z) : 100 <= p -> 128 <= Z.quot (p * 128 + 50) 100.
Proof.
  intros Hp. change 128 with (Z.quot 12850 100) at 1.
  apply Z.quot_le_mono; lia.
Qed.

(** X9. An adaptive slope of 100 percent or more switches the limiting
    off: with a non-negative [rateLimit], every non-first call returns
    its input (the adaptive term being computed without overflow). *)
Theorem full_slope_never_limits (s : SlewRateLimiter) (p x : Z) :
  isFirstCall s = false -> 100 <= p -> in_range (p * 128 + 50) ->
  0 <= rateLimit s ->
  in_range (rateLimit s) -> in_range (lastValue s) -> in_range x ->
  Z.abs (x - lastValue s) <= INT_MAX ->
  allowed_fits (setAdaptiveSlope s p) (x - lastValue s) ->
  fst (processValue (setAdaptiveSlope s p) x) = x.
Proof.
  intros Hf Hp Hpr Hr0 Hr Hl Hx Hd Hfit.
  destruct (setAdaptiveSlope_pos s p ltac:(lia) Hpr) as (Hval & Hpos).
  pose proof (full_slope_gain p Hp) as Hgain.
  set (s' := setAdaptiveSlope s p) in *.
  assert (Hl' : lastValue s' = lastValue s) by reflexivity.
  assert (Hr' : rateLimit s' = rateLimit s) by reflexivity.
  assert (Hallowed : Z.abs (x - lastValue s) <= allowedChange s' (x - lastValue s)).
  { rewrite allowedChange_adaptive by (assumption || lia).
    rewrite Hval, Hr'.
    assert (Z.abs (x - lastValue s)
            <= Z.abs (x - lastValue s) * Z.quot (p * 128 + 50) 100 / 128).
    { apply Z.div_le_lower_bound; [lia | nia]. }
    lia. }
  rewrite (processValue_next s' x Hf). simpl fst.
  rewrite (snappedValue_general s' x); rewrite ?Hl', ?Hr'; try assumption;
    [| lia].
  cbv zeta. set (a := allowedChange s' (x - lastValue s)) in *.
  step_cases a (x - lastValue s); lia.
Qed.

(** X10. [setAdaptiveSlope] rounds: for a non-negative percentage the
    stored gain is the integer nearest to [slope * 128 / 100], halves
    rounded up. *)
Theorem setAdaptiveSlope_rounds_to_nearest (s : SlewRateLimiter) (slope : Z) :
  0 <= slope -> in_range (slope * 128 + 50) ->
  let g := adaptiveSlopeInternal (setAdaptiveSlope s slope) in
  100 * g - 50 <= 128 * slope < 100 * g + 50.
Proof.
  intros Hs Hr g. subst g.
  assert (in_range (slope * 128))
    by (pose proof half_ge; unfold in_range, INT_MIN, INT_MAX in *; lia).
  rewrite setAdaptiveSlope_value by assumption.
  rewrite Z.quot_div_nonneg by lia.
  pose proof (Z.div_mod (slope * 128 + 50) 100 ltac:(lia)).
  pose proof (Z.mod_pos_bound (slope * 128 + 50) 100 ltac:(lia)).
  lia.
Qed.

End ClosedForms.

(* ================================================================= *)
(** ** How the EMA moves *)

Section EMAMotion.
Context {W : IntWidth}.
Import CInt.

Lemma exponent_weight_bounds (e : SRL_SmoothingExponent) :
  1 <= 2 ^ exponent_value e <= 512.
Proof. destruct e; simpl; lia. Qed.

Lemma ema_numerator_alt (x ema shift : Z) :
  ema_numerator x ema shift = 1024 * ema + (x - ema) * 2 ^ shift.
Proof. unfold ema_numerator. ring. Qed.

(** X11. The new [emaValue] lies between the input and the previous
    [emaValue], ends included. *)
Theorem ema_stays_between (s : SlewRateLimiter) (x : Z) :
  isFirstCall s = false ->
  ema_fits x (emaValue s) (exponent_value (currentExponent s)) ->
  Z.min x (emaValue s) <= emaValue (snd (processValue s x))
    <= Z.max x (emaValue s).
Proof.
  intros Hf Hfit. rewrite (processValue_next s x Hf). simpl.
  rewrite (updateEMA_floor _ _ _ Hfit), ema_numerator_alt.
  pose proof (exponent_weight_bounds (currentExponent s)) as Hw.
  set (w := 2 ^ exponent_value (currentExponent s)) in *.
  set (ema := emaValue s) in *.
  destruct (Z_le_gt_dec ema x).
  - assert (0 <= (x - ema) * w <= 1024 * (x - ema)) by nia.
    pose proof (Z.div_mod (1024 * ema + (x - ema) * w) 1024 ltac:(lia)).
    pose proof (Z.mod_pos_bound (1024 * ema + (x - ema) * w) 1024 ltac:(lia)).
    lia.
  - assert (1024 * (x - ema) <= (x - ema) * w <= 0) by nia.
    pose proof (Z.div_mod (1024 * ema + (x - ema) * w) 1024 ltac:(lia)).
    pose proof (Z.mod_pos_bound (1024 * ema + (x - ema) * w) 1024 ltac:(lia)).
    lia.
Qed.

(** X12. The EMA rounds downward: an input below [emaValue] always
    lowers it, while an input at or above it leaves it where it is
    until [(input - emaValue) * 2^shift] reaches 1024. *)
Theorem ema_rounds_downward (s : SlewRateLimiter) (x : Z) :
  isFirstCall s = false ->
  ema_fits x (emaValue s) (exponent_value (currentExponent s)) ->
  (x < emaValue s -> emaValue (snd (processValue s x)) < emaValue s) /\
  (emaValue s <= x ->
   (x - emaValue s) * 2 ^ exponent_value (currentExponent s) < 1024 ->
   emaValue (snd (processValue s x)) = emaValue s).
Proof.
  intros Hf Hfit. rewrite (processValue_next s x Hf). simpl.
  rewrite (updateEMA_floor _ _ _ Hfit), ema_numerator_alt.
  pose proof (exponent_weight_bounds (currentExponent s)) as Hw.
  set (w := 2 ^ exponent_value (currentExponent s)) in *.
  set (ema := emaValue s) in *.
  pose proof (Z.div_mod (1024 * ema + (x - ema) * w) 1024 ltac:(lia)).
  pose proof (Z.mod_pos_bound (1024 * ema + (x - ema) * w) 1024 ltac:(lia)).
  split.
  - intros Hlt. assert ((x - ema) * w < 0) by nia. lia.
  - intros Hle Hsmall. assert (0 <= (x - ema) * w) by nia. lia.
Qed.

End EMAMotion.

(* ================================================================= *)
(** ** Invariants of a run, reset and reconfiguration *)

Section Lifecycle.
Context {W : IntWidth}.
Import CInt.

Lemma last_cons_default (o d : Z) (os : list Z) :
  last (o :: os) d = last os o.
Proof.
  revert o d. induction os as [| o' os IH]; intros o d; [reflexivity |].
  change (last (o :: o' :: os) d) with (last (o' :: os) d).
  rewrite (IH o' d), (IH o' o). reflexivity.
Qed.

Lemma run_configuration (inputs : list Z) :
  forall s : SlewRateLimiter,
  currentExponent (snd (processValues s inputs)) = currentExponent s /\
  rateLimit (snd (processValues s inputs)) = rateLimit s /\
  hysteresisBand (snd (processValues s inputs)) = hysteresisBand s /\
  adaptiveSlopeInternal (snd (processValues s inputs))
    = adaptiveSlopeInternal s.
Proof.
  induction inputs as [| x rest IH]; intros s.
  - simpl. split_all; reflexivity.
  - rewrite processValues_cons. simpl snd.
    destruct (processValue_post s x) as (_ & _ & K3 & K4 & K5 & K6).
    destruct (IH (snd (processValue s x))) as (I4 & I5 & I6 & I7).
    cbv zeta in *. split_all; congruence.
Qed.

(** X13. Along any run of calls: there is one output per input; the
    configuration members are never changed; [lastValue] ends as the
    last value returned; and after at least one call the object is
    marked as initialised. *)
Theorem run_preserves_configuration (s : SlewRateLimiter) (inputs : list Z) :
  let r := processValues s inputs in
  length (fst r) = length inputs /\
  lastValue (snd r) = last (fst r) (lastValue s) /\
  (inputs <> [] -> isFirstCall (snd r) = false) /\
  currentExponent (snd r) = currentExponent s /\
  rateLimit (snd r) = rateLimit s /\
  hysteresisBand (snd r) = hysteresisBand s /\
  adaptiveSlopeInternal (snd r) = adaptiveSlopeInternal s.
Proof.
  revert s. induction inputs as [| x rest IH]; intros s r; subst r.
  - simpl. split_all; try reflexivity. intros H; contradiction.
  - rewrite processValues_cons. simpl fst. simpl snd.
    destruct (processValue_post s x) as (K1 & K2 & K3 & K4 & K5 & K6).
    destruct (IH (snd (processValue s x)))
      as (I1 & I2 & I3 & I4 & I5 & I6 & I7).
    cbv zeta in *.
    split_all; try congruence.
    + simpl. rewrite I1. reflexivity.
    + rewrite last_cons_default, I2, K2. reflexivity.
    + intros _. destruct rest as [| y rest']; [exact K1 |].
      apply I3. discriminate.
Qed.

(** X15. [reset] brings an object back to exactly the state its
    constructor gave it, after any run of calls. *)
Theorem reset_returns_to_constructed_state
    (e : SRL_SmoothingExponent) (rate hystBand slope : Z) (inputs : list Z) :
  reset (snd (processValues (new_SlewRateLimiter e rate hystBand slope) inputs))
    = new_SlewRateLimiter e rate hystBand slope.
Proof.
  destruct (run_configuration inputs
              (new_SlewRateLimiter e rate hystBand slope))
    as (He & Hr & Hh & Ha).
  unfold reset. rewrite He, Hr, Hh, Ha. reflexivity.
Qed.

(** X16. Zeroing [lastValue] and [emaValue] in [reset] cannot be
    observed: after the earlier revision's [reset], which only sets
    [isFirstCall], any non-empty run returns the same outputs and ends
    in the same state as after the full [reset]. *)
Theorem reset_skeleton_is_equivalent
    (s : SlewRateLimiter) (x : Z) (rest : list Z) :
  processValues (reset_skeleton s) (x :: rest)
    = processValues (reset s) (x :: rest).
Proof. rewrite !processValues_cons. reflexivity. Qed.

(** X17. Reconfiguring any freshly constructed object with the four
    setters gives the object the constructor builds from the same
    values; setters of different members commute, a setter overwrites
    its own earlier call, and setters commute with [reset]. *)
Theorem setters_compose
    (s : SlewRateLimiter) (e e0 : SRL_SmoothingExponent)
    (rate hystBand slope rate0 hystBand0 slope0 : Z) :
  setAdaptiveSlope
    (setHysteresisBand
       (setRateLimit
          (setSmoothingExponent
             (new_SlewRateLimiter e0 rate0 hystBand0 slope0) e) rate)
       hystBand) slope
    = new_SlewRateLimiter e rate hystBand slope /\
  setRateLimit (setHysteresisBand s hystBand) rate
    = setHysteresisBand (setRateLimit s rate) hystBand /\
  setRateLimit (setAdaptiveSlope s slope) rate
    = setAdaptiveSlope (setRateLimit s rate) slope /\
  setRateLimit (setSmoothingExponent s e) rate
    = setSmoothingExponent (setRateLimit s rate) e /\
  setHysteresisBand (setAdaptiveSlope s slope) hystBand
    = setAdaptiveSlope (setHysteresisBand s hystBand) slope /\
  setHysteresisBand (setSmoothingExponent s e) hystBand
    = setSmoothingExponent (setHysteresisBand s hystBand) e /\
  setAdaptiveSlope (setSmoothingExponent s e) slope
    = setSmoothingExponent (setAdaptiveSlope s slope) e /\
  setRateLimit (setRateLimit s rate0) rate = setRateLimit s rate /\
  setHysteresisBand (setHysteresisBand s hystBand0) hystBand
    = setHysteresisBand s hystBand /\
  setAdaptiveSlope (setAdaptiveSlope s slope0) slope
    = setAdaptiveSlope s slope /\
  setSmoothingExponent (setSmoothingExponent s e0) e
    = setSmoothingExponent s e /\
  reset (setRateLimit s rate) = setRateLimit (reset s) rate /\
  reset (setHysteresisBand s hystBand)
    = setHysteresisBand (reset s) hystBand /\
  reset (setAdaptiveSlope s slope) = setAdaptiveSlope (reset s) slope /\
  reset (setSmoothingExponent s e) = setSmoothingExponent (reset s) e.
Proof. split_all; reflexivity. Qed.

End Lifecycle.

(* ================================================================= *)
(** ** Step size, order and symmetry of the returned value *)

Section Shape.
Context {W : IntWidth}.
Import CInt.

(** X18. In fixed or adaptive mode with a non-negative [rateLimit],
    gain and band, a non-first call moves the output by at most the
    allowed step plus the hysteresis band. *)
Theorem step_within_allowed_plus_band (s : SlewRateLimiter) (x : Z) :
  isFirstCall s = false ->
  0 <= rateLimit s -> 0 <= adaptiveSlopeInternal s ->
  0 <= hysteresisBand s ->
  in_range (rateLimit s) -> in_range (lastValue s) -> in_range x ->
  Z.abs (x - lastValue s) <= INT_MAX ->
  adaptiveSlopeInternal s = 0 \/ allowed_fits s (x - lastValue s) ->
  Z.abs (fst (processValue s x) - lastValue s)
    <= allowedChange s (x - lastValue s) + hysteresisBand s.
Proof.
  intros Hf Hr0 Ha0 Hh0 Hr Hl Hx Hd Hmode.
  pose proof (allowedChange_ge_rate s (x - lastValue s) Ha0 Hmode) as Hge.
  rewrite (processValue_next s x Hf). simpl.
  rewrite (snappedValue_general s x Hr Hl Hx Hd ltac:(lia)). cbv zeta.
  set (a := allowedChange s (x - lastValue s)) in *.
  step_cases a (x - lastValue s); lia.
Qed.

(** X19. Fixed-rate mode without a band keeps the order of inputs: from
    the same state, a larger input never gives a smaller output. *)
Theorem fixed_mode_no_band_is_monotone (s : SlewRateLimiter) (x y : Z) :
  isFirstCall s = false ->
  adaptiveSlopeInternal s = 0 -> hysteresisBand s = 0 ->
  0 <= rateLimit s ->
  in_range (rateLimit s) -> in_range (lastValue s) ->
  in_range x -> in_range y ->
  Z.abs (x - lastValue s) <= INT_MAX ->
  Z.abs (y - lastValue s) <= INT_MAX ->
  x <= y ->
  fst (processValue s x) <= fst (processValue s y).
Proof.
  intros Hf Ha Hh Hr0 Hr Hl Hx Hy Hdx Hdy Hxy.
  rewrite (processValue_next s x Hf), (processValue_next s y Hf). simpl.
  rewrite (snappedValue_fixed s x Ha Hr0 Hr Hl Hx Hdx).
  rewrite (snappedValue_fixed s y Ha Hr0 Hr Hl Hy Hdy). cbv zeta.
  rewrite Hh.
  destruct (Z.ltb_spec (rateLimit s) (x - lastValue s));
    [| destruct (Z.ltb_spec (x - lastValue s) (- rateLimit s))];
    (destruct (Z.ltb_spec (rateLimit s) (y - lastValue s));
      [| destruct (Z.ltb_spec (y - lastValue s) (- rateLimit s))]);
    repeat match goal with
           | |- context [?u <=? ?v] => destruct (Z.leb_spec u v)
           end; lia.
Qed.

Lemma allowed_fits_mirror (s s' : SlewRateLimiter) (d : Z) :
  rateLimit s' = rateLimit s ->
  adaptiveSlopeInternal s' = adaptiveSlopeInternal s ->
  allowed_fits s d -> allowed_fits s' (- d).
Proof.
  unfold allowed_fits. intros Hr Ha. rewrite Hr, Ha, Z.abs_opp. tauto.
Qed.

Lemma allowedChange_mirror (s s' : SlewRateLimiter) (d : Z) :
  rateLimit s' = rateLimit s ->
  adaptiveSlopeInternal s' = adaptiveSlopeInternal s ->
  adaptiveSlopeInternal s = 0 \/ allowed_fits s d ->
  allowedChange s' (- d) = allowedChange s d.
Proof.
  intros Hr Ha Hmode.
  destruct (Z.eq_dec (adaptiveSlopeInternal s) 0) as [Hz | Hnz].
  - rewrite !allowedChange_fixed by congruence. exact Hr.
  - destruct Hmode as [Hz | Hfit]; [contradiction |].
    rewrite (allowedChange_adaptive s d Hnz Hfit).
    rewrite (allowedChange_adaptive s' (- d))
      by (congruence || (apply (allowed_fits_mirror s); assumption)).
    rewrite Hr, Ha, Z.abs_opp. reflexivity.
Qed.

(** X20. The returned value is symmetric under a change of sign: an
    object holding the opposite [lastValue] and given the opposite input
    returns the opposite value (non-negative [rateLimit] and gain). *)
Theorem output_is_odd_symmetric (s : SlewRateLimiter) (x : Z) :
  isFirstCall s = false ->
  0 <= rateLimit s -> 0 <= adaptiveSlopeInternal s ->
  in_range (rateLimit s) ->
  in_range (lastValue s) -> in_range (- lastValue s) ->
  in_range x -> in_range (- x) ->
  Z.abs (x - lastValue s) <= INT_MAX ->
  adaptiveSlopeInternal s = 0 \/ allowed_fits s (x - lastValue s) ->
  let mirrored :=
    mkSlewRateLimiter (- lastValue s) (emaValue s) false (currentExponent s)
      (rateLimit s) (hysteresisBand s) (adaptiveSlopeInternal s) in
  fst (processValue mirrored (- x)) = - fst (processValue s x).
Proof.
  intros Hf Hr0 Ha0 Hr Hl Hl' Hx Hx' Hd Hmode mirrored.
  pose proof (allowedChange_ge_rate s (x - lastValue s) Ha0 Hmode) as Hge.
  pose proof (allowedChange_mirror s mirrored (x - lastValue s)
                eq_refl eq_refl Hmode) as Hmir.
  assert (Hdm : - x - lastValue mirrored = - (x - lastValue s))
    by (simpl; lia).
  rewrite (processValue_next s x Hf).
  rewrite (processValue_next mirrored (- x) eq_refl). simpl fst.
  rewrite (snappedValue_general s x Hr Hl Hx Hd ltac:(lia)).
  rewrite (snappedValue_general mirrored (- x));
    rewrite ?Hdm, ?Hmir; try assumption; try (simpl; lia).
  cbv zeta. simpl lastValue. simpl hysteresisBand.
  set (a := allowedChange s (x - lastValue s)) in *.
  destruct (Z.ltb_spec a (x - lastValue s));
    [| destruct (Z.ltb_spec (x - lastValue s) (- a))];
    (destruct (Z.ltb_spec a (- (x - lastValue s)));
      [| destruct (Z.ltb_spec (- (x - lastValue s)) (- a))]);
    repeat match goal with
           | |- context [?u <=? ?v] => destruct (Z.leb_spec u v)
           end; lia.
Qed.

End Shape.

(* ================================================================= *)
(** ** Concrete instances of the statements above, on a 32-bit [int] *)

Lemma output_between_last_and_input_witness :
  Z.min (lastValue (example_adaptive (W := int32))) 100
    <= fst (processValue (W := int32) example_adaptive 100)
    <= Z.max (lastValue (example_adaptive (W := int32))) 100.
Proof.
  apply (output_between_last_and_input (W := int32) example_adaptive 100);
    first [ by_evaluation | right; by_evaluation ].
Defined.

Lemma input_within_allowed_step_passes_witness :
  fst (processValue (W := int32) example_adaptive 20) = 20 /\
  lastValue (snd (processValue (W := int32) example_adaptive 20)) = 20.
Proof.
  apply (input_within_allowed_step_passes (W := int32) example_adaptive 20);
    by_evaluation.
Defined.

Lemma fixed_mode_reaches_constant_input_witness :
  lastValue (snd (processValues (W := int32) (tracking 0 0 5 2)
                    (repeat 20 4))) = 20.
Proof.
  apply (fixed_mode_reaches_constant_input (W := int32)
           (tracking 0 0 5 2) 20 4); by_evaluation.
Defined.

Lemma fixed_mode_ramps_linearly_witness :
  lastValue (snd (processValues (W := int32) (tracking 0 0 5 2)
                    (repeat 100 3)))
    = lastValue (tracking 0 0 5 2) + Z.of_nat 3 * rateLimit (tracking 0 0 5 2).
Proof.
  refine (proj1 (fixed_mode_ramps_linearly (W := int32)
                   (tracking 0 0 5 2) 100 3 _ _ _ _ _ _ _) _);
    by_evaluation.
Defined.

Lemma constant_input_is_returned_unchanged_witness :
  fst (processValues (W := int32) default_SlewRateLimiter (repeat 42 3))
    = repeat 42 3.
Proof.
  apply (constant_input_is_returned_unchanged (W := int32)
           default_SlewRateLimiter 42 3);
    first [ by_evaluation | left; reflexivity ].
Defined.

Lemma negative_rate_leaves_equilibrium_witness :
  fst (processValue (W := int32) (tracking 10 10 (-5) 0)
         (lastValue (tracking 10 10 (-5) 0)))
    = lastValue (tracking 10 10 (-5) 0) + rateLimit (tracking 10 10 (-5) 0).
Proof.
  apply (negative_rate_leaves_equilibrium (W := int32)
           (tracking 10 10 (-5) 0)); by_evaluation.
Defined.

Lemma negative_band_never_snaps_witness :
  fst (processValue (W := int32) (tracking 0 0 5 (-1)) 20)
    = steppedValue (W := int32) (tracking 0 0 5 (-1)) 20.
Proof.
  apply (negative_band_never_snaps (W := int32) (tracking 0 0 5 (-1)) 20);
    by_evaluation.
Defined.

Lemma fixed_mode_closed_form_witness :
  fst (processValue (W := int32) (tracking 0 0 5 2) 7) =
    if Z.abs (7 - lastValue (tracking 0 0 5 2))
         <=? rateLimit (tracking 0 0 5 2) + hysteresisBand (tracking 0 0 5 2)
    then 7
    else if lastValue (tracking 0 0 5 2) <? 7
         then lastValue (tracking 0 0 5 2) + rateLimit (tracking 0 0 5 2)
         else lastValue (tracking 0 0 5 2) - rateLimit (tracking 0 0 5 2).
Proof.
  apply (fixed_mode_closed_form (W := int32) (tracking 0 0 5 2) 7);
    by_evaluation.
Defined.

Lemma full_slope_never_limits_witness :
  fst (processValue (W := int32)
         (setAdaptiveSlope (W := int32) (tracking 0 0 5 0) 100) 50) = 50.
Proof.
  apply (full_slope_never_limits (W := int32) (tracking 0 0 5 0) 100 50);
    by_evaluation.
Defined.

Lemma setAdaptiveSlope_rounds_to_nearest_witness :
  100 * adaptiveSlopeInternal
          (setAdaptiveSlope (W := int32) (tracking 0 0 5 2) 50) - 50
    <= 128 * 50
    < 100 * adaptiveSlopeInternal
              (setAdaptiveSlope (W := int32) (tracking 0 0 5 2) 50) + 50.
Proof.
  apply (setAdaptiveSlope_rounds_to_nearest (W := int32)
           (tracking 0 0 5 2) 50); by_evaluation.
Defined.

Lemma ema_stays_between_witness :
  Z.min 1000 (emaValue (tracking 0 100 5 2))
    <= emaValue (snd (processValue (W := int32) (tracking 0 100 5 2) 1000))
    <= Z.max 1000 (emaValue (tracking 0 100 5 2)).
Proof.
  apply (ema_stays_between (W := int32) (tracking 0 100 5 2) 1000);
    by_evaluation.
Defined.

Lemma ema_rounds_downward_witness :
  emaValue (snd (processValue (W := int32) (tracking 0 100 5 2) 99))
    < emaValue (tracking 0 100 5 2) /\
  emaValue (snd (processValue (W := int32) (tracking 0 100 5 2) 200))
    = emaValue (tracking 0 100 5 2).
Proof.
  split.
  - refine (proj1 (ema_rounds_downward (W := int32)
                     (tracking 0 100 5 2) 99 _ _) _); by_evaluation.
  - refine (proj2 (ema_rounds_downward (W := int32)
                     (tracking 0 100 5 2) 200 _ _) _ _); by_evaluation.
Defined.

Lemma run_preserves_configuration_witness :
  isFirstCall (snd (processValues (W := int32) default_SlewRateLimiter
                      [0; 20; 20])) = false.
Proof.
  refine (proj1 (proj2 (proj2
            (run_preserves_configuration (W := int32)
               default_SlewRateLimiter [0; 20; 20]))) _).
  discriminate.
Defined.

Lemma step_within_allowed_plus_band_witness :
  Z.abs (fst (processValue (W := int32) example_adaptive 100)
           - lastValue (example_adaptive (W := int32)))
    <= allowedChange (W := int32) example_adaptive
         (100 - lastValue (example_adaptive (W := int32)))
       + hysteresisBand (example_adaptive (W := int32)).
Proof.
  apply (step_within_allowed_plus_band (W := int32) example_adaptive 100);
    first [ by_evaluation | right; by_evaluation ].
Defined.

Lemma fixed_mode_no_band_is_monotone_witness :
  fst (processValue (W := int32) (tracking 0 0 5 0) 3)
    <= fst (processValue (W := int32) (tracking 0 0 5 0) 20).
Proof.
  apply (fixed_mode_no_band_is_monotone (W := int32) (tracking 0 0 5 0) 3 20);
    by_evaluation.
Defined.

Lemma output_is_odd_symmetric_witness :
  fst (processValue (W := int32)
         (mkSlewRateLimiter (- lastValue (tracking 10 0 5 2))
            (emaValue (tracking 10 0 5 2)) false
            (currentExponent (tracking 10 0 5 2))
            (rateLimit (tracking 10 0 5 2))
            (hysteresisBand (tracking 10 0 5 2))
            (adaptiveSlopeInternal (tracking 10 0 5 2)))
         (- 40))
    = - fst (processValue (W := int32) (tracking 10 0 5 2) 40).
Proof.
  apply (output_is_odd_symmetric (W := int32) (tracking 10 0 5 2) 40);
    first [ by_evaluation | left; reflexivity ].
Defined.

(* ================================================================= *)
(** ** The EMA never reaches the outputs *)

Section DeadState.
Context {W : IntWidth}.
Import CInt.

Lemma snappedValue_same (s1 s2 : SlewRateLimiter) (x : Z) :
  lastValue s1 = lastValue s2 -> rateLimit s1 = rateLimit s2 ->
  hysteresisBand s1 = hysteresisBand s2 ->
  adaptiveSlopeInternal s1 = adaptiveSlopeInternal s2 ->
  snappedValue s1 x = snappedValue s2 x.
Proof.
  intros Hl Hr Hh Ha. unfold snappedValue, steppedValue, allowedChange.
  rewrite Hl, Hr, Hh, Ha. reflexivity.
Qed.

(** X21. Over any run of calls, first call included, the outputs do not
    depend on [emaValue] or on the smoothing exponent: two objects that
    agree on [isFirstCall], [lastValue], [rateLimit], [hysteresisBand]
    and [adaptiveSlopeInternal] return the same outputs for the same
    inputs. *)
Theorem run_outputs_ignore_ema
    (s1 s2 : SlewRateLimiter) (inputs : list Z) :
  isFirstCall s1 = isFirstCall s2 ->
  lastValue s1 = lastValue s2 ->
  rateLimit s1 = rateLimit s2 ->
  hysteresisBand s1 = hysteresisBand s2 ->
  adaptiveSlopeInternal s1 = adaptiveSlopeInternal s2 ->
  fst (processValues s1 inputs) = fst (processValues s2 inputs).
Proof.
  revert s1 s2. induction inputs as [| x rest IH];
    intros s1 s2 Hf Hl Hr Hh Ha; [reflexivity |].
  rewrite !processValues_cons. simpl fst.
  assert (Hout : fst (processValue s1 x) = fst (processValue s2 x)).
  { unfold processValue. rewrite Hf. destruct (isFirstCall s2); simpl;
      [reflexivity | apply snappedValue_same; assumption]. }
  destruct (processValue_post s1 x) as (A1 & A2 & _ & A4 & A5 & A6).
  destruct (processValue_post s2 x) as (B1 & B2 & _ & B4 & B5 & B6).
  cbv zeta in *.
  rewrite Hout. f_equal. apply IH; congruence.
Qed.

End DeadState.

Lemma run_outputs_ignore_ema_witness :
  fst (processValues (W := int32)
         (mkSlewRateLimiter 0 0 false SRL_SMOOTHING_4 5 2 64) [100; 100; 0])
    = fst (processValues (W := int32)
             (mkSlewRateLimiter 0 777 false SRL_SMOOTHING_512 5 2 64)
             [100; 100; 0]).
Proof.
  apply (run_outputs_ignore_ema (W := int32)
           (mkSlewRateLimiter 0 0 false SRL_SMOOTHING_4 5 2 64)
           (mkSlewRateLimiter 0 777 false SRL_SMOOTHING_512 5 2 64)
           [100; 100; 0]); reflexivity.
Defined.
